(** * Control-plane orchestration of chain follow / check / correct

    Shallow embedding of [internal/core/drand_beacon_control.go]:
    the single-flight guard on [bp.syncerCancel], [StartFollowChain],
    [StartCheckChain], [chainInfoFromPeers], the progress callbacks and
    [validateGroupTransition].

    Conventions.
    - [uint64] and [int64] values are [Z]; the only arithmetic of the file
      that can wrap ([targ-curr]) is written with its wrap-around.
    - A Go [error] is an inductive value that keeps the message of the
      source; [nil] is [None].
    - Functions with side effects pass a [World] explicitly.  Every call
      to a collaborator and every write to [bp.syncerCancel] is recorded
      in a ghost log, so that the order of effects can be stated.
    - Collaborators that live outside this file ([privGateway.ChainInfo],
      [public.InfoFromProto], the store, the sync manager, the beacon
      handler ...) are parameters: their results are read from an
      environment record; logging and tracing spans are not modelled. *)

From Stdlib Require Import ZArith List String Bool Lia.
Import ListNotations.
Open Scope Z_scope.

(* ================================================================== *)
(** * Go runtime notions used by the file *)
(* ================================================================== *)
Module Go.
(** [uint64] subtraction, with wrap-around. *)
Definition sub64 (a b : Z) : Z := (a - b) mod 2 ^ 64.

Definition uint64 (z : Z) : Prop := 0 <= z < 2 ^ 64.

(** Errors: [errors.New], [fmt.Errorf] (with the error wrapped by
    [%w], if any), the error of a cancelled context, and errors
    produced by collaborators. *)
Inductive error : Type :=
| errors_New (msg : string)
| fmt_Errorf (msg : string)
| fmt_Errorf_w (msg : string) (wrapped : error)
| ctx_Err
| external (msg : string).

(** [fmt.Errorf("... %w", err)] where [err] may be nil: nothing is
    wrapped then. *)
Definition Errorf_w (msg : string) (err : option error) : error :=
  match err with
  | Some e => fmt_Errorf_w msg e
  | None => fmt_Errorf msg
  end.

(** Result of running a piece of code that may panic; the state
    reached when the panic is raised is kept. *)
Inductive result (A : Type) : Type :=
| Normal (a : A)
| Panic (msg : string) (a : A).
Arguments Normal {A} a.
Arguments Panic {A} msg a.

Definition state_of {A} (r : result A) : A :=
  match r with Normal a => a | Panic _ a => a end.

Definition panicked {A} (r : result A) : bool :=
  match r with Normal _ => false | Panic _ _ => true end.

(** A [chan struct{}] that is only ever closed. *)
Inductive signal : Type := Open | Closed.

(** [close(c)]: closing a closed channel panics. *)
Definition close (c : signal) : result signal :=
  match c with
  | Open => Normal Closed
  | Closed => Panic "close of closed channel" Closed
  end.

(** A channel variable: [var c chan T] declares the nil channel,
    [make(chan T)] creates a usable one. *)
Inductive chan : Type := chan_nil | chan_make.

(** Can a send on [c] meet a receiver blocked in [select]?  On the
    nil channel a send blocks forever and a receive case is never
    chosen. *)
Definition can_communicate (c : chan) : bool :=
  match c with chan_nil => false | chan_make => true end.

(** [bytes.Equal] *)
Fixpoint bytes_Equal (a b : list Z) : bool :=
  match a, b with
  | [], [] => true
  | x :: a', y :: b' => (x =? y) && bytes_Equal a' b'
  | _, _ => false
  end.

End Go.

(* ================================================================== *)
(** * Progress reporting: [sendPlainProgressCallback], [sendProgressCallback] *)
(* ================================================================== *)
Module Progress.
Import Go.

(** [drand.SyncProgress] *)
Record SyncProgress : Type := { Current : Z; Target : Z }.

(** What a callback can touch: the client's stream (the messages
    handed to [stream.Send], in order) and its [done] channel.  The
    error [stream.Send] may return is only logged (lines 586-588),
    so a failed send is still listed: the list is the list of send
    attempts. *)
Record CbState : Type := { stream : list SyncProgress; done : signal }.

Definition stream_Send (m : SyncProgress) (st : CbState) : CbState :=
  {| stream := stream st ++ [m]; done := done st |}.

Definition close_done (st : CbState) : result CbState :=
  match close (done st) with
  | Normal d => Normal {| stream := stream st; done := d |}
  | Panic msg d => Panic msg {| stream := stream st; done := d |}
  end.

Section Callback.
(** [common.LogsToSkip], a constant of another package. *)
Variable LogsToSkip : Z.

(** Line 574: [if curr > targ { targ = curr }]. *)
Definition clamp (curr targ : Z) : Z :=
  if curr >? targ then curr else targ.

(** Line 578, on the clamped target. *)
Definition rate_limited (curr targ : Z) : bool :=
  (targ >? LogsToSkip) && (sub64 targ curr >? LogsToSkip)
  && negb (curr mod LogsToSkip =? 0).

(** The closure returned by [sendPlainProgressCallback] (lines 572-593). *)
Definition plainProgressCb (keepFollowing : bool) (curr targ : Z)
    (st : CbState) : result CbState :=
  let targ := clamp curr targ in
  if rate_limited curr targ then Normal st
  else
    let st := stream_Send {| Current := curr; Target := targ |} st in
    if negb keepFollowing && (targ >? 0) && (curr =? targ)
    then close_done st
    else Normal st.

(** [sendPlainProgressCallback]: the callback and a fresh [done]. *)
Definition sendPlainProgressCallback (keepFollowing : bool)
  : (Z -> Z -> CbState -> result CbState) * signal :=
  (plainProgressCb keepFollowing, Open).

(** The state a new callback starts from, on stream [s]. *)
Definition fresh_cb (s : list SyncProgress) : CbState :=
  {| stream := s; done := Open |}.

(** [sendProgressCallback] (lines 533-558).  [currentRound] is the
    value of [common.CurrentRound(clk.Now().Unix(), info.Period,
    info.GenesisTime)]. *)
Definition follow_target (currentRound upTo : Z) : Z :=
  if negb (upTo =? 0) && (upTo <? currentRound) then upTo
  else currentRound.

Definition sendProgressCallback (upTo currentRound : Z)
  : (Z -> bool -> CbState -> result CbState) * signal :=
  let targ := follow_target currentRound upTo in
  let '(plainProgressCb', done') := sendPlainProgressCallback (upTo =? 0) in
  (fun (round : Z) (closed : bool) (st : CbState) =>
     if closed then Normal st else plainProgressCb' round targ st,
   done').

(** Messages handed to [stream.Send] between two states. *)
Definition sent_between (st st' : CbState) : list SyncProgress :=
  skipn (List.length (stream st)) (stream st').

(** A sequence of calls to one callback; a panic ends the run. *)
Fixpoint run_calls (keepFollowing : bool) (calls : list (Z * Z))
    (st : CbState) : result CbState :=
  match calls with
  | [] => Normal st
  | (curr, targ) :: rest =>
      match plainProgressCb keepFollowing curr targ st with
      | Normal st' => run_calls keepFollowing rest st'
      | Panic msg st' => Panic msg st'
      end
  end.

End Callback.

Definition target_ge_current (m : SyncProgress) : Prop :=
  Current m <= Target m.

End Progress.

(* ================================================================== *)
(** * The node, its collaborators and the ghost log *)
(* ================================================================== *)
Module Control.
Import Go Progress.

(** [net.Peer], built from an address by [net.CreatePeer]. *)
Definition Peer : Type := string.

(** A [context.CancelFunc], named by the cancellable scope it cancels. *)
Definition CancelFunc : Type := nat.

(** [public.Info]; [Hash] stands for the value of [info.Hash()]. *)
Record Info : Type := {
  ID : string;
  Period : Z;
  GenesisTime : Z;
  GenesisSeed : list Z;
  SchemeName : string;
  Hash : list Z
}.

(** [bp.beacon], the local beacon handler: the results of its two
    methods used here.  The progress callbacks these methods invoke
    while they run write to the client's stream only and are studied
    in [Progress]; they are not replayed in the log. *)
Record Handler : Type := {
  ValidateChain : Z -> list Z * option error;
  CorrectChain : list Z -> list Peer -> option error
}.

(** The fields of [BeaconProcess] read or written by the two
    controllers.  [Addr] is [bp.priv.Public.Addr], which
    [bp.priv.Public.Address()] returns. *)
Record BeaconProcess : Type := {
  syncerCancel : option CancelFunc;
  beacon : option Handler;
  Addr : string;
  beaconID : string
}.

(** [drand.StartSyncRequest] *)
Record StartSyncRequest : Type := {
  Nodes : list string;
  UpTo : Z;
  ChainHash : list Z
}.

(** Effects, in the order they happen.  [EvSend] is a message the
    controller itself hands to [stream.Send] (line 453); the messages
    that [ValidateChain], [CorrectChain] or the store send through the
    progress callback they were given are not events of this log. *)
Inductive Event : Type :=
| EvLock | EvUnlock
| EvSetSyncerCancel (v : option CancelFunc)
| EvCancel (c : CancelFunc)
| EvCreateStore | EvStorePut | EvStoreClose
| EvNewCallbackStore | EvCbStoreClose
| EvAddCallback | EvRemoveCallback
| EvSyncerRun | EvSyncerStop
| EvSync (scope : CancelFunc)
| EvSleep (d : Z)
| EvValidateChain (upTo : Z)
| EvSend (m : SyncProgress)
| EvCorrectChain (faulty : list Z) (peers : list Peer).

Record World : Type := {
  bp : BeaconProcess;
  next_scope : nat;
  log : list Event
}.

(** What the environment does while a controller waits in a [select]:
    the [done] channel gets closed (by a progress callback built with
    [keepFollowing = false]), the caller's context is cancelled, or the
    running [syncer.Sync] call returns. *)
Inductive Occ : Type :=
| OccDone
| OccCtxDone
| OccSyncReturns (err : option error).

(** Result of an invocation: it returned, or it is still blocked in
    its [select] when the environment has nothing more to offer. *)
Inductive Outcome : Type :=
| Returned (err : option error)
| Blocked.

Definition emit (e : Event) (w : World) : World :=
  {| bp := bp w; next_scope := next_scope w; log := log w ++ [e] |}.

Definition Lock : World -> World := emit EvLock.
Definition Unlock : World -> World := emit EvUnlock.

Definition set_syncerCancel (v : option CancelFunc) (w : World) : World :=
  emit (EvSetSyncerCancel v)
    {| bp := {| syncerCancel := v; beacon := beacon (bp w);
                Addr := Addr (bp w); beaconID := beaconID (bp w) |};
       next_scope := next_scope w; log := log w |}.

(** [context.WithCancel]: a fresh cancellable scope. *)
Definition WithCancel (w : World) : CancelFunc * World :=
  (next_scope w,
   {| bp := bp w; next_scope := S (next_scope w); log := log w |}).

Definition call_cancel (c : CancelFunc) : World -> World := emit (EvCancel c).

(** [defer d] around the rest of a function body: [d] runs when the
    body returns. *)
Definition defer (d : World -> World) (body : World -> Outcome * World)
    (w : World) : Outcome * World :=
  let '(r, w') := body w in
  match r with
  | Returned _ => (r, d w')
  | Blocked => (r, w')
  end.

(** The deferred closure of lines 287-296 and 423-430. *)
Definition release (w : World) : World :=
  let w := Lock w in
  let w := match syncerCancel (bp w) with
           | Some cancel => call_cancel cancel w
           | None => w
           end in
  let w := set_syncerCancel None w in
  Unlock w.

Definition err_syncing : error := errors_New "syncing is already in progress".
Definition err_beacon_nil : error :=
  errors_New "beacon handler is nil, you might need to first --follow a chain and start aggregating beacons".

(** [for _, addr := range req.GetNodes()] skipping our own address. *)
Definition peers_of (self : string) (nodes : list string) : list Peer :=
  filter (fun addr => negb (String.eqb addr self)) nodes.

(** The final [select] of [StartCheckChain] (lines 483-490). *)
Fixpoint check_wait (sched : list Occ) : Outcome :=
  match sched with
  | [] => Blocked
  | OccDone :: _ => Returned None
  | OccCtxDone :: _ => Returned (Some ctx_Err)
  | OccSyncReturns _ :: rest => check_wait rest
  end.

(** [StartCheckChain], after the guard has been taken (lines 432-490).
    The two calls to [sendPlainProgressCallback] only build closures
    and are left out. *)
Definition check_body (h : Handler) (sched : list Occ)
    (req : StartSyncRequest) (w : World) : Outcome * World :=
  let peers := peers_of (Addr (bp w)) (Nodes req) in
  let w := emit (EvValidateChain (UpTo req)) w in
  let '(faultyBeacons, err) := ValidateChain h (UpTo req) in
  match err with
  | Some e => (Returned (Some e), w)
  | None =>
      let w := emit (EvSend {| Current := 0;
                               Target := Z.of_nat (List.length faultyBeacons) |}) w in
      let dryRun :=
        match Nodes req with
        | [n] => String.eqb n (Addr (bp w))
        | _ => false
        end in
      if (Nat.eqb (List.length faultyBeacons) 0 || dryRun)%bool
      then (Returned None, w)
      else
        let w := emit (EvSleep 1000000000) w in
        let w := emit (EvCorrectChain faultyBeacons peers) w in
        match CorrectChain h faultyBeacons peers with
        | Some e => (Returned (Some e), w)
        | None => (check_wait sched, w)
        end
  end.

(** [StartCheckChain] (lines 399-491). *)
Definition StartCheckChain (sched : list Occ) (req : StartSyncRequest)
    (w : World) : Outcome * World :=
  match beacon (bp w) with
  | None => (Returned (Some err_beacon_nil), w)
  | Some h =>
      let w := Lock w in
      match syncerCancel (bp w) with
      | Some _ =>
          let w := Unlock w in
          (Returned (Some err_syncing), w)
      | None =>
          let '(ctx, w) := WithCancel w in
          let w := set_syncerCancel (Some ctx) w in
          let w := Unlock w in
          defer release (check_body h sched req) w
      end
  end.

Section Follow.
(** [drand.ChainInfoPacket] *)
Variable Packet : Type.

(** Collaborators of [StartFollowChain].  A Go function returning
    a pointer and an error is a pair of options: the code below reads both
    components exactly where the source does. *)
Record Env : Type := {
  ChainInfo : Peer -> option Packet * option error;
  InfoFromProto : option Packet -> option Info * option error;
  CompareBeaconIDs : string -> string -> bool;
  createDBStore : option error;
  store_Put : option error;
  SchemeFromName : string -> option error;
  NewSchemeStore : option error;
  NewSyncManager : option error;
  schedule : list Occ
}.
Variable env : Env.

(** The loop of lines 511-523, on the two variables it assigns. *)
Fixpoint chainInfo_loop (peers : list Peer) (info : option Info)
    (err : option error) : option Info * option error :=
  match peers with
  | [] => (info, err)
  | peer :: rest =>
      let '(ci, err) := ChainInfo env peer in
      match err with
      | Some _ => chainInfo_loop rest info err
      | None =>
          let '(info, err) := InfoFromProto env ci in
          chainInfo_loop rest info err
      end
  end.

(** [chainInfoFromPeers] (lines 494-528).  The gateway, version and
    beacon id read under the read lock are what [ChainInfo env] closes
    over. *)
Definition chainInfoFromPeers (peers : list Peer) : Info + error :=
  let '(info, err) := chainInfo_loop peers None None in
  match info with
  | None =>
      inr (Errorf_w "unable to get chain info successfully. Last err: %w" err)
  | Some i => inl i
  end.

(** The [select] of lines 381-394, waiting with sub-scope [syncCtx];
    [errChan] is the channel the goroutine of line 378 sends on. *)
Fixpoint follow_select (errChan : chan) (period : Z)
    (syncCtx : CancelFunc) (sched : list Occ) (w : World)
    : Outcome * World :=
  match sched with
  | [] => (Blocked, w)
  | OccDone :: _ => (Returned None, call_cancel syncCtx w)
  | OccCtxDone :: _ => (Returned (Some ctx_Err), call_cancel syncCtx w)
  | OccSyncReturns _ :: rest =>
      if can_communicate errChan then
        (* case <-errChan *)
        let w := call_cancel syncCtx w in
        let w := emit (EvSleep period) w in
        (* continue: next iteration of the for loop *)
        let '(syncCtx', w) := WithCancel w in
        let w := emit (EvSync syncCtx') w in
        follow_select errChan period syncCtx' rest w
      else
        (* the goroutine blocks in its send; the select keeps waiting *)
        follow_select errChan period syncCtx rest w
  end.

(** The [for] loop of lines 376-395. *)
Definition follow_loop (errChan : chan) (period : Z) (sched : list Occ)
    (w : World) : Outcome * World :=
  let '(syncCtx, w) := WithCancel w in
  let w := emit (EvSync syncCtx) w in
  follow_select errChan period syncCtx sched w.

(** Line 374: [var errChan chan error]. *)
Definition errChan : chan := chan_nil.

(** [StartFollowChain], after the guard has been taken (lines 298-395). *)
Definition follow_body (req : StartSyncRequest) (w : World)
    : Outcome * World :=
  let peers := peers_of (Addr (bp w)) (Nodes req) in
  match chainInfoFromPeers peers with
  | inr err => (Returned (Some err), w)
  | inl info =>
    if negb (bytes_Equal (Hash info) (ChainHash req)) then
      (Returned (Some (fmt_Errorf "chain hash mismatch: rcv(%x) != bp(%x)")), w)
    else if negb (CompareBeaconIDs env (beaconID (bp w)) (ID info)) then
      (Returned (Some (errors_New "invalid beacon id on chain info")), w)
    else
      match createDBStore env with
      | Some err =>
          (Returned (Some (fmt_Errorf_w "unable to create store: %w" err)), w)
      | None =>
        let w := emit EvCreateStore w in
        let w := emit EvStorePut w in
        match store_Put env with
        | Some err =>
            let w := emit EvStoreClose w in
            (Returned (Some (fmt_Errorf_w "unable to insert genesis block: %w" err)), w)
        | None =>
          match SchemeFromName env (SchemeName info) with
          | Some err => (Returned (Some err), w)
          | None =>
            match NewSchemeStore env with
            | Some err => (Returned (Some err), w)
            | None =>
              let w := emit EvNewCallbackStore w in
              defer (emit EvCbStoreClose) (fun w =>
                let w := emit EvAddCallback w in
                defer (emit EvRemoveCallback) (fun w =>
                  match NewSyncManager env with
                  | Some err => (Returned (Some err), w)
                  | None =>
                      let w := emit EvSyncerRun w in
                      defer (emit EvSyncerStop)
                        (follow_loop errChan (Period info) (schedule env)) w
                  end) w) w
            end
          end
        end
      end
  end.

(** [StartFollowChain] (lines 263-396). *)
Definition StartFollowChain (req : StartSyncRequest) (w : World)
    : Outcome * World :=
  let w := Lock w in
  match syncerCancel (bp w) with
  | Some _ =>
      let w := Unlock w in
      (Returned (Some err_syncing), w)
  | None =>
      let '(ctx, w) := WithCancel w in
      let w := set_syncerCancel (Some ctx) w in
      let w := Unlock w in
      defer release (follow_body req) w
  end.

End Follow.

Arguments ChainInfo {Packet} e.
Arguments InfoFromProto {Packet} e.
Arguments CompareBeaconIDs {Packet} e.
Arguments createDBStore {Packet} e.
Arguments store_Put {Packet} e.
Arguments SchemeFromName {Packet} e.
Arguments NewSchemeStore {Packet} e.
Arguments NewSyncManager {Packet} e.
Arguments schedule {Packet} e.
Arguments chainInfo_loop {Packet} env peers info err.
Arguments chainInfoFromPeers {Packet} env peers.
Arguments follow_body {Packet} env req w.
Arguments StartFollowChain {Packet} env req w.

(** Events the log gained between two worlds. *)
Definition new_events (w w' : World) : list Event :=
  skipn (List.length (log w)) (log w').

Definition is_Sync (e : Event) : bool :=
  match e with EvSync _ => true | _ => false end.
Definition is_Sleep (e : Event) : bool :=
  match e with EvSleep _ => true | _ => false end.
Definition is_CorrectChain (e : Event) : bool :=
  match e with EvCorrectChain _ _ => true | _ => false end.
(** Closing the callback store counts as closing the store it wraps. *)
Definition is_StoreClose (e : Event) : bool :=
  match e with EvStoreClose | EvCbStoreClose => true | _ => false end.
Definition is_CreateStore (e : Event) : bool :=
  match e with EvCreateStore => true | _ => false end.

Definition count (p : Event -> bool) (l : list Event) : nat :=
  List.length (filter p l).

(** Schedules in which nothing happens but returns of [syncer.Sync]. *)
Definition only_sync_returns (sched : list Occ) : Prop :=
  Forall (fun o => match o with OccSyncReturns _ => True | _ => False end) sched.

End Control.

(* ================================================================== *)
(** * Group transitions: [validateGroupTransition] *)
(* ================================================================== *)
Module Group.
Import Go.

(** The fields of [key.Group] the predicate reads. *)
Record Group : Type := {
  GenesisTime : Z;
  Period : Z;
  ID : string;
  GenesisSeed : list Z;
  TransitionTime : Z
}.

Definition err_nil_group : error :=
  errors_New "the new group file could not be transitioned to, as it was `nil`".
Definition err_genesis_time : error :=
  errors_New "control: old and new group have different genesis time".
Definition err_period : error :=
  errors_New "control: old and new group have different period - unsupported feature at the moment".
Definition err_id : error :=
  errors_New "control: old and new group have different ID - unsupported feature at the moment".
Definition err_genesis_seed : error :=
  errors_New "control: old and new group have different genesis seed".
Definition err_transition_past : error :=
  errors_New "control: new group with transition time in the past".

Section Validate.
(** [common.CompareBeaconIDs] *)
Variable CompareBeaconIDs : string -> string -> bool.
(** [GetGenesisSeed] of [key.Group], a method on a pointer receiver:
    the seed it returns and the receiver after the call. *)
Variable GetGenesisSeed : Group -> list Z * Group.
(** [bp.opts.clock.Now().Unix()] *)
Variable now : Z.

(** [validateGroupTransition] (lines 598-633): what it returns, and
    the two groups after the call. *)
Definition validateGroupTransition (oldGroup newGroup : option Group)
  : result (option error) * (option Group * option Group) :=
  match oldGroup with
  | None =>
      match newGroup with
      | None => (Normal (Some err_nil_group), (None, None))
      | Some n => (Normal None, (None, Some n))
      end
  | Some o =>
      match newGroup with
      | None =>
          (Panic "invalid memory address or nil pointer dereference" None,
           (Some o, None))
      | Some n =>
          if negb (GenesisTime o =? GenesisTime n) then
            (Normal (Some err_genesis_time), (Some o, Some n))
          else if negb (Period o =? Period n) then
            (Normal (Some err_period), (Some o, Some n))
          else if negb (CompareBeaconIDs (ID o) (ID n)) then
            (Normal (Some err_id), (Some o, Some n))
          else
            let '(seed_o, o) := GetGenesisSeed o in
            let '(seed_n, n) := GetGenesisSeed n in
            if negb (bytes_Equal seed_o seed_n) then
              (Normal (Some err_genesis_seed), (Some o, Some n))
            else if TransitionTime n <? now then
              (Normal (Some err_transition_past), (Some o, Some n))
            else (Normal None, (Some o, Some n))
      end
  end.

(** Do the three checks made before the seeds are read pass
    (lines 608-621)? *)
Definition reaches_seeds (o n : Group) : bool :=
  (GenesisTime o =? GenesisTime n) && (Period o =? Period n)
  && CompareBeaconIDs (ID o) (ID n).

(** The two groups after a call on two groups: once the seeds are
    read the accessor has run on both; nothing else writes to them. *)
Definition groups_after (o n : Group) : Group * Group :=
  if reaches_seeds o n
  then (snd (GetGenesisSeed o), snd (GetGenesisSeed n))
  else (o, n).

(** The checks as the specification lists them, each with the error
    of its failure.  The seeds are what the accessor returns, and the
    transition time is read from the new group after the accessor ran
    on it. *)
Definition checks_in_order (o n : Group) : list (bool * error) :=
  [ (GenesisTime o =? GenesisTime n, err_genesis_time);
    (Period o =? Period n, err_period);
    (CompareBeaconIDs (ID o) (ID n), err_id);
    (bytes_Equal (fst (GetGenesisSeed o)) (fst (GetGenesisSeed n)),
     err_genesis_seed);
    (now <=? TransitionTime (snd (GetGenesisSeed n)), err_transition_past) ].

(** The error of the first check that fails, if any. *)
Fixpoint first_failure (checks : list (bool * error)) : option error :=
  match checks with
  | [] => None
  | (ok, e) :: rest => if ok then first_failure rest else Some e
  end.

End Validate.

Definition error_kinds : list error :=
  [ err_nil_group; err_genesis_time; err_period; err_id;
    err_genesis_seed; err_transition_past ].

End Group.

(* ================================================================== *)
(** * Concrete nodes, requests and collaborators *)
(* ================================================================== *)
Module Scenarios.
Import Go Progress Control.

(** A node on which a sync session is active, and no local beacon
    instance exists: what a node that is following a chain looks like. *)
Definition w_following : World :=
  {| bp := {| syncerCancel := Some 0%nat; beacon := None;
              Addr := "127.0.0.1:4444"; beaconID := "default" |};
     next_scope := 1; log := [] |}.

Definition h_clean : Handler :=
  {| ValidateChain := fun _ => ([], None);
     CorrectChain := fun _ _ => None |}.

(** The same node with a beacon handler. *)
Definition w_busy : World :=
  {| bp := {| syncerCancel := Some 0%nat; beacon := Some h_clean;
              Addr := "127.0.0.1:4444"; beaconID := "default" |};
     next_scope := 1; log := [] |}.

Definition req_any : StartSyncRequest :=
  {| Nodes := ["10.0.0.2:4444"%string]; UpTo := 0; ChainHash := [7] |}.

Definition env_trivial : Env string :=
  {| ChainInfo := fun p => (Some p, None);
     InfoFromProto := fun _ => (None, Some (external "invalid chain info"));
     CompareBeaconIDs := String.eqb;
     createDBStore := None; store_Put := None;
     SchemeFromName := fun _ => None;
     NewSchemeStore := None; NewSyncManager := None;
     schedule := [] |}.

Definition self : string := "127.0.0.1:4444".

(** A validator that fails. *)
Definition h_failing : Handler :=
  {| ValidateChain := fun _ => ([], Some (external "unable to read the local chain"));
     CorrectChain := fun _ _ => None |}.

(** A validator that reports rounds 3 and 8 as faulty. *)
Definition h_faulty : Handler :=
  {| ValidateChain := fun _ => ([3; 8], None);
     CorrectChain := fun _ _ => None |}.

Definition node (h : Handler) : World :=
  {| bp := {| syncerCancel := None; beacon := Some h;
              Addr := self; beaconID := "default" |};
     next_scope := 0; log := [] |}.

Definition req_dry_run : StartSyncRequest :=
  {| Nodes := [self]; UpTo := 100; ChainHash := [] |}.

Definition info_a : Info :=
  {| ID := "default"; Period := 30000000000; GenesisTime := 1600000000;
     GenesisSeed := [1; 2; 3]; SchemeName := "pedersen-bls-chained";
     Hash := [7] |}.

Definition idle : World :=
  {| bp := {| syncerCancel := None; beacon := None;
              Addr := self; beaconID := "default" |};
     next_scope := 0; log := [] |}.

(** Follow up to round 100: [keepFollowing] is false, so [done] can
    be closed. *)
Definition req_follow : StartSyncRequest :=
  {| Nodes := ["10.0.0.2:4444"%string; self]; UpTo := 100; ChainHash := [7] |}.

(** Every collaborator succeeds; the first [Sync] fails, a second one
    would succeed. *)
Definition env_ok : Env string :=
  {| ChainInfo := fun p => (Some p, None);
     InfoFromProto := fun _ => (Some info_a, None);
     CompareBeaconIDs := String.eqb;
     createDBStore := None; store_Put := None;
     SchemeFromName := fun _ => None;
     NewSchemeStore := None; NewSyncManager := None;
     schedule := [OccSyncReturns (Some (external "no peer answered"));
                  OccSyncReturns None] |}.

(** [N] failures of [Sync], then a success. *)
Definition failures_then_success (N : nat) (e : error) : list Occ :=
  repeat (OccSyncReturns (Some e)) N ++ [OccSyncReturns None].

(** Every collaborator succeeds; [Sync] fails [N] times before it
    would succeed. *)
Definition env_failing (N : nat) : Env string :=
  {| ChainInfo := fun p => (Some p, None);
     InfoFromProto := fun _ => (Some info_a, None);
     CompareBeaconIDs := String.eqb;
     createDBStore := None; store_Put := None;
     SchemeFromName := fun _ => None;
     NewSchemeStore := None; NewSyncManager := None;
     schedule := failures_then_success N (external "no peer answered") |}.

(** The same, with a scheme-aware store that cannot be built: the
    scheme name is accepted, [beacon.NewSchemeStore] fails. *)
Definition env_bad_scheme_store : Env string :=
  {| ChainInfo := fun p => (Some p, None);
     InfoFromProto := fun _ => (Some info_a, None);
     CompareBeaconIDs := String.eqb;
     createDBStore := None; store_Put := None;
     SchemeFromName := fun _ => None;
     NewSchemeStore := Some (external "unable to read the last beacon");
     NewSyncManager := None;
     schedule := [OccDone] |}.

(** The same, with a failing insertion of the genesis beacon. *)
Definition env_bad_put : Env string :=
  {| ChainInfo := fun p => (Some p, None);
     InfoFromProto := fun _ => (Some info_a, None);
     CompareBeaconIDs := String.eqb;
     createDBStore := None; store_Put := Some (external "disk full");
     SchemeFromName := fun _ => None;
     NewSchemeStore := None; NewSyncManager := None;
     schedule := [OccDone] |}.

(** Every collaborator succeeds and the target is reached. *)
Definition env_done : Env string :=
  {| ChainInfo := fun p => (Some p, None);
     InfoFromProto := fun _ => (Some info_a, None);
     CompareBeaconIDs := String.eqb;
     createDBStore := None; store_Put := None;
     SchemeFromName := fun _ => None;
     NewSchemeStore := None; NewSyncManager := None;
     schedule := [OccDone] |}.

(** Two peers answer; [InfoFromProto] accepts the packet of the first
    and rejects the packet of the second, returning a nil info with
    its error. *)
Definition env_second_garbled : Env string :=
  {| ChainInfo := fun p => (Some p, None);
     InfoFromProto := fun ci =>
       match ci with
       | Some p =>
           if String.eqb p "10.0.0.3:4444"
           then (None, Some (external "invalid chain info"))
           else (Some info_a, None)
       | None => (None, Some (external "nil packet"))
       end;
     CompareBeaconIDs := String.eqb;
     createDBStore := None; store_Put := None;
     SchemeFromName := fun _ => None;
     NewSchemeStore := None; NewSyncManager := None;
     schedule := [] |}.

(** The accessor of the seed as a plain read of the field. *)
Definition read_seed (g : Group.Group) : list Z * Group.Group :=
  (Group.GenesisSeed g, g).

Definition g_old : Group.Group :=
  {| Group.GenesisTime := 1600000000; Group.Period := 30;
     Group.ID := "default"; Group.GenesisSeed := [1; 2; 3];
     Group.TransitionTime := 1600000300 |}.

(** [g_old] with its transition time moved to [t]. *)
Definition g_next (t : Z) : Group.Group :=
  {| Group.GenesisTime := 1600000000; Group.Period := 30;
     Group.ID := "default"; Group.GenesisSeed := [1; 2; 3];
     Group.TransitionTime := t |}.

(** A stand-in for the digest of a group ([g.Hash()]). *)
Definition digest (g : Group.Group) : list Z :=
  [Group.GenesisTime g mod 256; Group.Period g mod 256].

(** A seed accessor that caches, as [GetGenesisSeed] of [key.Group]
    does: a group without seed gets the digest computed from it stored
    as its seed; a group with a seed is only read. *)
Definition caching_seed (g : Group.Group) : list Z * Group.Group :=
  match Group.GenesisSeed g with
  | [] =>
      (digest g,
       {| Group.GenesisTime := Group.GenesisTime g; Group.Period := Group.Period g;
          Group.ID := Group.ID g; Group.GenesisSeed := digest g;
          Group.TransitionTime := Group.TransitionTime g |})
  | seed => (seed, g)
  end.

(** A group whose seed was never computed, with transition time [t]. *)
Definition g_unseeded (t : Z) : Group.Group :=
  {| Group.GenesisTime := 1600000000; Group.Period := 30;
     Group.ID := "default"; Group.GenesisSeed := [];
     Group.TransitionTime := t |}.

(** [g_old] with another period and a transition time in the future. *)
Definition g_other_period : Group.Group :=
  {| Group.GenesisTime := 1600000000; Group.Period := 60;
     Group.ID := "default"; Group.GenesisSeed := [1; 2; 3];
     Group.TransitionTime := 1700000900 |}.

End Scenarios.


(* ================================================================== *)
(** * Status of the node and of its peers: [Status], [RemoteStatus] *)
(* ================================================================== *)
Module StatusModel.
Import Go.

(** A Go [map[string]V]: an association list with one entry per key.
    Iteration order plays no role in the code modelled here. *)
Section GoMap.
Variable V : Type.

Definition gomap : Type := list (string * V).

Fixpoint map_get (k : string) (m : gomap) : option V :=
  match m with
  | [] => None
  | (k', v) :: m' => if String.eqb k k' then Some v else map_get k m'
  end.

(** [m[k] = v] *)
Definition map_set (k : string) (v : V) (m : gomap) : gomap :=
  (k, v) :: filter (fun kv => negb (String.eqb k (fst kv))) m.

End GoMap.
Arguments map_get {V} k m.
Arguments map_set {V} k v m.

(** [GetAddress] of [drand.Address]: the empty string on a nil pointer. *)
Definition GetAddress (a : option string) : string :=
  match a with Some s => s | None => "" end.

(** The fields of [bp.group] read here; [Nodes] holds the addresses of
    the nodes of the group, in order. *)
Record GroupView : Type := {
  Nodes : list string;
  Period : Z;
  GenesisTime : Z
}.

(** What [Status] asks of [bp.beacon]: its three flags and the result
    of [Store().Last(ctx)], the round of the last beacon (nil pointer:
    [None]) and an error. *)
Record BeaconView : Type := {
  Handler_IsStopped : bool;
  Handler_IsRunning : bool;
  Handler_IsServing : bool;
  Store_Last : option Z * option error
}.

Record BeaconProcess : Type := {
  beacon : option BeaconView;
  group : option GroupView;
  Addr : string
}.

(** [drand.BeaconStatus], [drand.ChainStoreStatus], [drand.StatusResponse].
    The [Dkg] field of the response always holds the zero value and is
    left out; [Connections] is the nil map when nothing was stored. *)
Record BeaconStatus : Type := {
  BeaconStatus_Status : Z;
  IsStopped : bool;
  IsRunning : bool;
  IsServing : bool
}.

Record ChainStoreStatus : Type := {
  IsEmpty : bool;
  LastStored : Z;
  ExpectedLast : Z
}.

Record StatusResponse : Type := {
  Beacon : BeaconStatus;
  ChainStore : ChainStoreStatus;
  Connections : option (gomap bool)
}.

(** A reply, or a run-time panic. *)
Inductive reply (A : Type) : Type :=
| Reply (a : A)
| Panics (msg : string).
Arguments Reply {A} a.
Arguments Panics {A} msg.

Definition nil_dereference : string :=
  "invalid memory address or nil pointer dereference".

(** Calls made to other nodes so far: the addresses pinged with
    [privGateway.Check] and those asked with [privGateway.Status]. *)
Record Net : Type := {
  pinged : list string;
  asked : list string
}.

Section Handlers.
(** [BeaconNotInited] and [BeaconInited], as [uint32]. *)
Variable BeaconNotInited BeaconInited : Z.
(** [common.CurrentRound] *)
Variable CurrentRound : Z -> Z -> Z -> Z.
(** [bp.opts.clock.Now().Unix()] *)
Variable now : Z.
(** [privGateway.Check]: the answer to the call number [k] (counting
    from 0), made to the given address. *)
Variable Check : nat -> string -> option error.
(** [privGateway.Status]: likewise; a response pointer and an error. *)
Variable GatewayStatus : nat -> string -> option StatusResponse * option error.

Definition empty_chain_store : ChainStoreStatus :=
  {| IsEmpty := true; LastStored := 0; ExpectedLast := 0 |}.

(** Lines 165-188. *)
Definition local_status (bp : BeaconProcess)
  : reply (BeaconStatus * ChainStoreStatus) :=
  match beacon bp with
  | None =>
      Reply ({| BeaconStatus_Status := BeaconNotInited; IsStopped := false;
                IsRunning := false; IsServing := false |},
             empty_chain_store)
  | Some h =>
      let beaconStatus :=
        {| BeaconStatus_Status := BeaconInited; IsStopped := Handler_IsStopped h;
           IsRunning := Handler_IsRunning h; IsServing := Handler_IsServing h |} in
      match Store_Last h with
      | (Some round, None) =>
          match group bp with
          | None => Panics nil_dereference
          | Some g =>
              Reply (beaconStatus,
                     {| IsEmpty := false; LastStored := round;
                        ExpectedLast := CurrentRound now (Period g) (GenesisTime g) |})
          end
      | _ => Reply (beaconStatus, empty_chain_store)
      end
  end.

(** Lines 191-198: the list of nodes to test. *)
Definition connectivity_list (bp : BeaconProcess)
    (nodeList : list (option string)) : reply (list (option string)) :=
  match nodeList with
  | [first] =>
      match first with
      | None => Panics nil_dereference
      | Some a =>
          if String.eqb a (Addr bp) then
            match beacon bp, group bp with
            | Some _, Some g => Reply (nodeList ++ map Some (Nodes g))
            | _, _ => Reply nodeList
            end
          else Reply nodeList
      end
  | _ => Reply nodeList
  end.

(** The loop of lines 202-232. *)
Fixpoint check_loop (self : string) (nodeList : list (option string))
    (net : Net) (resp : gomap bool) : Net * gomap bool :=
  match nodeList with
  | [] => (net, resp)
  | addr :: rest =>
      let remoteAddress := GetAddress addr in
      if String.eqb remoteAddress "" then check_loop self rest net resp
      else if String.eqb remoteAddress self then check_loop self rest net resp
      else
        let err := Check (List.length (pinged net)) remoteAddress in
        let net := {| pinged := pinged net ++ [remoteAddress];
                      asked := asked net |} in
        match err with
        | Some _ => check_loop self rest net (map_set remoteAddress false resp)
        | None => check_loop self rest net (map_set remoteAddress true resp)
        end
  end.

(** [Status] (lines 156-244); it never returns an error. *)
Definition Status (bp : BeaconProcess) (CheckConn : list (option string))
    (net : Net) : reply (StatusResponse * Net) :=
  match local_status bp with
  | Panics msg => Panics msg
  | Reply (beaconStatus, chainStore) =>
      match connectivity_list bp CheckConn with
      | Panics msg => Panics msg
      | Reply nodeList =>
          let '(net, resp) := check_loop (Addr bp) nodeList net [] in
          Reply ({| Beacon := beaconStatus; ChainStore := chainStore;
                    Connections :=
                      if Nat.ltb 0 (List.length resp) then Some resp else None |},
                 net)
      end
  end.

(** Lines 107-119: the nodes [RemoteStatus] asks. *)
Definition remote_nodes (bp : BeaconProcess) (addresses : list (option string))
  : list (option string) :=
  match addresses with
  | [] =>
      match beacon bp, group bp with
      | Some _, Some g =>
          map Some (filter (fun a => negb (String.eqb a (Addr bp))) (Nodes g))
      | _, _ => []
      end
  | _ => addresses
  end.

(** The loop of lines 121-147; [nodes] is the whole list, handed to
    every node as [CheckConn]. *)
Fixpoint remote_loop (bp : BeaconProcess) (nodes : list (option string))
    (todo : list (option string)) (net : Net)
    (replies : gomap (option StatusResponse))
  : reply (gomap (option StatusResponse) * Net) :=
  match todo with
  | [] => Reply (replies, net)
  | addr :: rest =>
      let remoteAddress := GetAddress addr in
      if String.eqb remoteAddress "" then remote_loop bp nodes rest net replies
      else if String.eqb remoteAddress (Addr bp) then
        match Status bp nodes net with
        | Panics msg => Panics msg
        | Reply (resp, net) =>
            remote_loop bp nodes rest net (map_set remoteAddress (Some resp) replies)
        end
      else
        let '(resp, err) := GatewayStatus (List.length (asked net)) remoteAddress in
        let net := {| pinged := pinged net; asked := asked net ++ [remoteAddress] |} in
        match err with
        | Some _ => remote_loop bp nodes rest net replies
        | None => remote_loop bp nodes rest net (map_set remoteAddress resp replies)
        end
  end.

(** [RemoteStatus] (lines 103-153); it never returns an error. *)
Definition RemoteStatus (bp : BeaconProcess) (addresses : list (option string))
    (net : Net) : reply (gomap (option StatusResponse) * Net) :=
  let nodes := remote_nodes bp addresses in
  remote_loop bp nodes nodes net [].

End Handlers.

(** Addresses that get contacted: neither empty nor the node's own. *)
Definition contactable (self : string) (a : string) : bool :=
  negb (String.eqb a "") && negb (String.eqb a self).

(** The addresses of a list that get contacted, in order. *)
Definition contacts (self : string) (nodeList : list (option string)) : list string :=
  filter (contactable self) (map GetAddress nodeList).

Definition has_key {V : Type} (k : string) (m : gomap V) : Prop :=
  map_get k m <> None.

Definition panics {A : Type} (r : reply A) : Prop :=
  match r with Panics _ => True | Reply _ => False end.

End StatusModel.

(* ================================================================== *)
(** * Runs of the progress callback *)
(* ================================================================== *)
Module ProgressRuns.
Import Go Progress.

(** The message a call hands to [stream.Send] when it is not
    suppressed. *)
Definition message_of (call : Z * Z) : SyncProgress :=
  {| Current := fst call; Target := clamp (fst call) (snd call) |}.

(** The calls of a sequence that pass the test of line 578. *)
Definition passing (S : Z) (calls : list (Z * Z)) : list (Z * Z) :=
  filter (fun call => negb (rate_limited S (fst call) (clamp (fst call) (snd call))))
    calls.

(** Rounds [1 .. n]. *)
Definition rounds (n : nat) : list Z := map Z.of_nat (seq 1 n).

(** A catch-up: one call per round [1 .. n], all with target [n]. *)
Definition catch_up (n : nat) : list (Z * Z) :=
  map (fun c => (c, Z.of_nat n)) (rounds n).

End ProgressRuns.

(* ================================================================== *)
(** * Reading the log of an invocation *)
(* ================================================================== *)
Module ControlRuns.
Import Go Progress Control.

Definition is_Send (e : Event) : bool :=
  match e with EvSend _ => true | _ => false end.

(** The message of line 525. *)
Definition no_chain_info : string :=
  "unable to get chain info successfully. Last err: %w".

(** What taking the guard with scope [c], and releasing it, log. *)
Definition acquire_events (c : CancelFunc) : list Event :=
  [EvLock; EvSetSyncerCancel (Some c); EvUnlock].
Definition release_events (c : CancelFunc) : list Event :=
  [EvLock; EvCancel c; EvSetSyncerCancel None; EvUnlock].

(** The node with its guard set to [v]. *)
Definition with_guard (v : option CancelFunc) (b : BeaconProcess) : BeaconProcess :=
  {| syncerCancel := v; beacon := beacon b; Addr := Addr b;
     beaconID := beaconID b |}.

(** A peer that cannot be reached. *)
Definition unreachable {Packet : Type} (env : Env Packet) (q : Peer) : Prop :=
  exists ci e, ChainInfo env q = (ci, Some e).

Section Paths.
Variable Packet : Type.
Variable env : Env Packet.
Variable req : StartSyncRequest.
(** The node and the scope the invocation stores in the guard. *)
Variable b : BeaconProcess.
Variable n : CancelFunc.

(** The chain info was fetched, and its hash and beacon id accepted
    (lines 307-322). *)
Definition verified (info : Info) : Prop :=
  chainInfoFromPeers env (peers_of (Addr b) (Nodes req)) = inl info
  /\ bytes_Equal (Hash info) (ChainHash req) = true
  /\ CompareBeaconIDs env (beaconID b) (ID info) = true.

(** The store was created and the genesis beacon inserted, and both
    wrappers of the store were built (lines 324-345). *)
Definition stores_ready (info : Info) : Prop :=
  verified info
  /\ createDBStore env = None /\ store_Put env = None
  /\ SchemeFromName env (SchemeName info) = None
  /\ NewSchemeStore env = None.

(** The ways through the body of [StartFollowChain], each with what it
    returns and the events between taking and releasing the guard. *)
Inductive FollowPath : Outcome -> list Event -> Prop :=
| path_no_info e :
    chainInfoFromPeers env (peers_of (Addr b) (Nodes req)) = inr e ->
    FollowPath (Returned (Some e)) []
| path_hash info :
    chainInfoFromPeers env (peers_of (Addr b) (Nodes req)) = inl info ->
    bytes_Equal (Hash info) (ChainHash req) = false ->
    FollowPath
      (Returned (Some (fmt_Errorf "chain hash mismatch: rcv(%x) != bp(%x)"))) []
| path_beacon_id info :
    chainInfoFromPeers env (peers_of (Addr b) (Nodes req)) = inl info ->
    bytes_Equal (Hash info) (ChainHash req) = true ->
    CompareBeaconIDs env (beaconID b) (ID info) = false ->
    FollowPath (Returned (Some (errors_New "invalid beacon id on chain info"))) []
| path_create_store info e :
    verified info -> createDBStore env = Some e ->
    FollowPath (Returned (Some (fmt_Errorf_w "unable to create store: %w" e))) []
| path_put info e :
    verified info -> createDBStore env = None -> store_Put env = Some e ->
    FollowPath (Returned (Some (fmt_Errorf_w "unable to insert genesis block: %w" e)))
      [EvCreateStore; EvStorePut; EvStoreClose]
| path_scheme info e :
    verified info -> createDBStore env = None -> store_Put env = None ->
    SchemeFromName env (SchemeName info) = Some e ->
    FollowPath (Returned (Some e)) [EvCreateStore; EvStorePut]
| path_scheme_store info e :
    verified info -> createDBStore env = None -> store_Put env = None ->
    SchemeFromName env (SchemeName info) = None ->
    NewSchemeStore env = Some e ->
    FollowPath (Returned (Some e)) [EvCreateStore; EvStorePut]
| path_sync_manager info e :
    stores_ready info -> NewSyncManager env = Some e ->
    FollowPath (Returned (Some e))
      [EvCreateStore; EvStorePut; EvNewCallbackStore; EvAddCallback;
       EvRemoveCallback; EvCbStoreClose]
| path_returned info err :
    stores_ready info -> NewSyncManager env = None ->
    check_wait (schedule env) = Returned err ->
    FollowPath (Returned err)
      [EvCreateStore; EvStorePut; EvNewCallbackStore; EvAddCallback;
       EvSyncerRun; EvSync (S n); EvCancel (S n);
       EvSyncerStop; EvRemoveCallback; EvCbStoreClose]
| path_blocked info :
    stores_ready info -> NewSyncManager env = None ->
    check_wait (schedule env) = Blocked ->
    FollowPath Blocked
      [EvCreateStore; EvStorePut; EvNewCallbackStore; EvAddCallback;
       EvSyncerRun; EvSync (S n)].

End Paths.

(** The guard after an invocation: free once it returned, held while
    it is blocked. *)
Definition guard_after (out : Outcome) (n : CancelFunc) : option CancelFunc :=
  match out with Returned _ => None | Blocked => Some n end.

Definition release_after (out : Outcome) (n : CancelFunc) : list Event :=
  match out with Returned _ => release_events n | Blocked => [] end.

End ControlRuns.

(* ================================================================== *)
(** * More concrete collaborators *)
(* ================================================================== *)
Module MoreScenarios.
Import Go Progress Control Scenarios.

(** The peer at 10.0.0.9 cannot be reached; the packet of 10.0.0.3 does
    not parse; every other peer answers with [info_a]. *)
Definition env_mixed : Env string :=
  {| ChainInfo := fun p =>
       if String.eqb p "10.0.0.9:4444"
       then (None, Some (external "connection refused"))
       else (Some p, None);
     InfoFromProto := InfoFromProto env_second_garbled;
     CompareBeaconIDs := String.eqb;
     createDBStore := None; store_Put := None;
     SchemeFromName := fun _ => None;
     NewSchemeStore := None; NewSyncManager := None;
     schedule := [OccSyncReturns None; OccCtxDone] |}.

(** A request that names only the node itself. *)
Definition req_self_only : StartSyncRequest :=
  {| Nodes := [self; self]; UpTo := 0; ChainHash := [7] |}.

(** A request for another chain. *)
Definition req_other_chain : StartSyncRequest :=
  {| Nodes := ["10.0.0.2:4444"%string]; UpTo := 100; ChainHash := [8] |}.

(** A validator that reports rounds 3 and 8, and a corrector that
    fails. *)
Definition h_uncorrectable : Handler :=
  {| ValidateChain := fun _ => ([3; 8], None);
     CorrectChain := fun _ _ => Some (external "no peer has round 3") |}.

End MoreScenarios.

(* ================================================================== *)
(** * A node of a group of three, and its network *)
(* ================================================================== *)
Module StatusScenarios.
Import Go StatusModel.

Definition self : string := Scenarios.self.
Definition peer2 : string := "10.0.0.2:4444".
Definition peer3 : string := "10.0.0.3:4444".

Definition group3 : GroupView :=
  {| Nodes := [self; peer2; peer3]; Period := 30; GenesisTime := 1600000000 |}.

Definition beacon_up : BeaconView :=
  {| Handler_IsStopped := false; Handler_IsRunning := true;
     Handler_IsServing := true; Store_Last := (Some 42, None) |}.

Definition member : BeaconProcess :=
  {| beacon := Some beacon_up; group := Some group3; Addr := self |}.

(** Round numbering used for the expected last round. *)
Definition round_at (now period genesis : Z) : Z :=
  (now - genesis) / period + 1.

(** [peer3] does not answer pings; [peer2] does. *)
Definition ping (k : nat) (a : string) : option error :=
  if String.eqb a peer3 then Some (external "deadline exceeded") else None.

Definition remote_response : StatusResponse :=
  {| Beacon := {| BeaconStatus_Status := 1; IsStopped := false;
                  IsRunning := true; IsServing := true |};
     ChainStore := {| IsEmpty := false; LastStored := 41; ExpectedLast := 42 |};
     Connections := None |}.

(** [peer3] does not answer status requests either. *)
Definition gateway (k : nat) (a : string) : option StatusResponse * option error :=
  if String.eqb a peer3 then (None, Some (external "deadline exceeded"))
  else (Some remote_response, None).

Definition quiet : Net := {| pinged := []; asked := [] |}.

(** [Status] asked about the node itself. *)
Definition status_run : reply (StatusResponse * Net) :=
  Status 0 1 round_at 1700000000 ping member [Some self] quiet.

Definition status_response : StatusResponse :=
  match status_run with
  | Reply (resp, _) => resp
  | Panics _ => remote_response
  end.

Definition status_net : Net :=
  match status_run with
  | Reply (_, net) => net
  | Panics _ => quiet
  end.

(** [RemoteStatus] asked about [peer3], the node itself, a nil address
    and [peer2]. *)
Definition remote_request : list (option string) :=
  [Some peer3; Some self; None; Some peer2].

Definition remote_run : reply (gomap (option StatusResponse) * Net) :=
  RemoteStatus 0 1 round_at 1700000000 ping gateway member remote_request quiet.

Definition remote_replies : gomap (option StatusResponse) :=
  match remote_run with
  | Reply (replies, _) => replies
  | Panics _ => []
  end.

Definition remote_net : Net :=
  match remote_run with
  | Reply (_, net) => net
  | Panics _ => quiet
  end.

End StatusScenarios.

(* ================================================================== *)
(** * Byte strings *)
(* ================================================================== *)
Module GoFacts.
Import Go.

Lemma bytes_Equal_spec a b : bytes_Equal a b = true <-> a = b.
Proof.
  revert b; induction a as [|x a IH]; intros [|y b]; simpl;
    try (split; [discriminate | discriminate]); try tauto.
  rewrite andb_true_iff, Z.eqb_eq, IH.
  split; [intros [-> ->]; reflexivity | intros H; inversion H; auto].
Qed.

End GoFacts.

(* ================================================================== *)
(** * Properties of the progress callback *)
(* ================================================================== *)
Module ProgressFacts.
Import Go Progress Scenarios.

Lemma sent_between_app st l :
  sent_between st {| stream := stream st ++ l; done := done st |} = l.
Proof.
  unfold sent_between; simpl.
  rewrite skipn_app, skipn_all, Nat.sub_diag; reflexivity.
Qed.

Lemma sent_between_refl st : sent_between st st = [].
Proof. unfold sent_between; apply skipn_all. Qed.

Lemma clamp_ge curr targ : curr <= clamp curr targ.
Proof. unfold clamp; destruct (Z.gtb_spec curr targ); lia. Qed.

Lemma clamp_id curr targ : curr <= targ -> clamp curr targ = targ.
Proof. unfold clamp; destruct (Z.gtb_spec curr targ); lia. Qed.

Lemma clamp_over curr targ : curr > targ -> clamp curr targ = curr.
Proof. unfold clamp; destruct (Z.gtb_spec curr targ); lia. Qed.

(** After the clamp the subtraction of line 578 cannot wrap. *)
Lemma sub64_clamp curr targ :
  uint64 curr -> uint64 targ ->
  sub64 (clamp curr targ) curr = clamp curr targ - curr.
Proof.
  unfold uint64, sub64; intros Hc Ht.
  pose proof (clamp_ge curr targ).
  apply Z.mod_small.
  unfold clamp in *; destruct (curr >? targ); lia.
Qed.

(** What one call hands to [stream.Send]. *)
Lemma plainProgressCb_sent S kf curr targ st :
  sent_between st (state_of (plainProgressCb S kf curr targ st)) =
  if rate_limited S curr (clamp curr targ) then []
  else [{| Current := curr; Target := clamp curr targ |}].
Proof.
  unfold plainProgressCb.
  destruct (rate_limited S curr (clamp curr targ)); simpl.
  - apply sent_between_refl.
  - destruct (negb kf && (clamp curr targ >? 0) && (curr =? clamp curr targ)).
    + unfold close_done, stream_Send; simpl.
      destruct (done st); simpl; apply (sent_between_app st).
    + simpl. apply (sent_between_app st).
Qed.

Lemma rate_limited_iff S curr targ :
  0 < S -> uint64 curr -> uint64 targ ->
  rate_limited S curr (clamp curr targ) = true <->
  clamp curr targ > S /\ clamp curr targ - curr > S /\ curr mod S <> 0.
Proof.
  intros HS Hc Ht. unfold rate_limited.
  rewrite (sub64_clamp curr targ Hc Ht).
  rewrite !andb_true_iff, negb_true_iff, Z.eqb_neq.
  rewrite (Z.gtb_gt (clamp curr targ) S).
  rewrite (Z.gtb_gt (clamp curr targ - curr) S).
  tauto.
Qed.

(** The stream only grows, and only by messages whose target is not
    below their current round. *)
Lemma plainProgressCb_stream S kf curr targ st :
  exists l, stream (state_of (plainProgressCb S kf curr targ st)) = stream st ++ l
            /\ Forall target_ge_current l.
Proof.
  unfold plainProgressCb.
  destruct (rate_limited S curr (clamp curr targ)); simpl.
  - exists []; rewrite app_nil_r; split; [reflexivity | constructor].
  - exists [{| Current := curr; Target := clamp curr targ |}].
    split.
    + destruct (negb kf && (clamp curr targ >? 0) && (curr =? clamp curr targ));
        [unfold close_done; simpl; destruct (done st) |]; reflexivity.
    + constructor; [apply clamp_ge | constructor].
Qed.

Lemma run_calls_stream S kf calls : forall st,
  Forall target_ge_current (stream st) ->
  Forall target_ge_current (stream (state_of (run_calls S kf calls st))).
Proof.
  induction calls as [|[curr targ] rest IH]; intros st Hst; simpl.
  - exact Hst.
  - destruct (plainProgressCb_stream S kf curr targ st) as (l & Hl & Hok).
    destruct (plainProgressCb S kf curr targ st) as [st'|msg st'] eqn:E;
      simpl in *.
    + apply IH. rewrite Hl. apply Forall_app; split; assumption.
    + rewrite Hl. apply Forall_app; split; assumption.
Qed.

(** C5. A call [(curr, targ)] sends nothing exactly when, for the
    clamped target [t], [t > S], [t - curr > S] and [curr mod S <> 0];
    a call with [curr = targ] always hands one message to the stream. *)
Theorem rate_limit_suppresses_iff S kf curr targ st :
  0 < S -> uint64 curr -> uint64 targ ->
  (sent_between st (state_of (plainProgressCb S kf curr targ st)) = [] <->
   clamp curr targ > S /\ clamp curr targ - curr > S /\ curr mod S <> 0)
  /\ (curr = targ ->
      sent_between st (state_of (plainProgressCb S kf curr targ st))
      = [{| Current := curr; Target := targ |}]).
Proof.
  intros HS Hc Ht.
  rewrite plainProgressCb_sent.
  pose proof (rate_limited_iff S curr targ HS Hc Ht) as Hiff.
  split.
  - destruct (rate_limited S curr (clamp curr targ)).
    + split; [intros _; apply Hiff; reflexivity | reflexivity].
    + split; [discriminate |].
      intros H. apply Hiff in H. discriminate.
  - intros ->.
    destruct (rate_limited S targ (clamp targ targ)) eqn:E.
    + destruct Hiff as [Hi _]. specialize (Hi eq_refl).
      rewrite clamp_id in Hi; lia.
    + rewrite clamp_id; [reflexivity | lia].
Qed.

Lemma rate_limit_suppresses_iff_witness :
  (sent_between (fresh_cb []) (state_of (plainProgressCb 300 false 301 1000 (fresh_cb []))) = [] <->
   clamp 301 1000 > 300 /\ clamp 301 1000 - 301 > 300 /\ 301 mod 300 <> 0)
  /\ (301 = 1000 ->
      sent_between (fresh_cb []) (state_of (plainProgressCb 300 false 301 1000 (fresh_cb [])))
      = [{| Current := 301; Target := 1000 |}]).
Proof.
  apply (rate_limit_suppresses_iff 300 false 301 1000 (fresh_cb []));
    unfold uint64; lia.
Defined.

(** C6. A call with [curr > targ] sends the message
    [{Current: curr, Target: curr}], and over any sequence of calls
    every message on the stream has [Target >= Current]. *)
Theorem reported_target_never_below_current S kf curr targ st calls :
  0 <= S ->
  (curr > targ ->
   sent_between st (state_of (plainProgressCb S kf curr targ st))
   = [{| Current := curr; Target := curr |}])
  /\ Forall target_ge_current
       (sent_between st (state_of (plainProgressCb S kf curr targ st)))
  /\ Forall target_ge_current
       (stream (state_of (run_calls S kf calls (fresh_cb [])))).
Proof.
  intros HS. rewrite plainProgressCb_sent. repeat split.
  - intros Hgt. rewrite (clamp_over _ _ Hgt).
    unfold rate_limited, sub64. rewrite Z.sub_diag.
    replace (0 mod 2 ^ 64 >? S) with false.
    + rewrite andb_false_r. reflexivity.
    + symmetry. rewrite Z.mod_0_l by lia. destruct (Z.gtb_spec 0 S); [lia | reflexivity].
  - destruct (rate_limited S curr (clamp curr targ)); constructor;
      [apply clamp_ge | constructor].
  - apply run_calls_stream. constructor.
Qed.

Lemma reported_target_never_below_current_witness :
  (9 > 4 ->
   sent_between (fresh_cb []) (state_of (plainProgressCb 300 true 9 4 (fresh_cb [])))
   = [{| Current := 9; Target := 9 |}])
  /\ Forall target_ge_current
       (sent_between (fresh_cb []) (state_of (plainProgressCb 300 true 9 4 (fresh_cb []))))
  /\ Forall target_ge_current
       (stream (state_of (run_calls 300 true [(9, 4); (10, 4); (600, 5000)] (fresh_cb [])))).
Proof.
  apply (reported_target_never_below_current 300 true 9 4 (fresh_cb [])
           [(9, 4); (10, 4); (600, 5000)]).
  lia.
Defined.

End ProgressFacts.


(* ================================================================== *)
(** * Completion signal of the progress callback *)
(* ================================================================== *)
Module CompletionFacts.
Import Go Progress ProgressFacts Scenarios.

Lemma not_rate_limited_at_target S N : 0 <= S -> rate_limited S N (clamp N N) = false.
Proof.
  intros HS. rewrite clamp_id by lia.
  unfold rate_limited, sub64. rewrite Z.sub_diag, Z.mod_0_l by lia.
  destruct (Z.gtb_spec 0 S); [lia |].
  rewrite andb_false_r. reflexivity.
Qed.

(** C3, on the code.  With [keepFollowing = false], a first call with
    [curr = targ = N > 0] sends the message and closes [done]; a second
    identical call sends the message again and closes [done] again,
    which panics. *)
Theorem second_call_at_target_double_closes (S N : Z) (s : list SyncProgress) :
  0 <= S -> 0 < N ->
  let m := {| Current := N; Target := N |} in
  plainProgressCb S false N N (fresh_cb s)
  = Normal {| stream := s ++ [m]; done := Closed |}
  /\ plainProgressCb S false N N {| stream := s ++ [m]; done := Closed |}
     = Panic "close of closed channel"
         {| stream := (s ++ [m]) ++ [m]; done := Closed |}.
Proof.
  intros HS HN m. unfold plainProgressCb.
  rewrite (not_rate_limited_at_target S N HS).
  rewrite clamp_id by lia.
  replace (N >? 0) with true by (symmetry; apply Z.gtb_lt; lia).
  rewrite Z.eqb_refl. split; reflexivity.
Qed.

Lemma second_call_at_target_double_closes_witness :
  plainProgressCb 300 false 5 5 (fresh_cb [])
  = Normal {| stream := [{| Current := 5; Target := 5 |}]; done := Closed |}
  /\ plainProgressCb 300 false 5 5
       {| stream := [{| Current := 5; Target := 5 |}]; done := Closed |}
     = Panic "close of closed channel"
         {| stream := [{| Current := 5; Target := 5 |};
                       {| Current := 5; Target := 5 |}];
            done := Closed |}.
Proof.
  apply (second_call_at_target_double_closes 300 5 []); lia.
Defined.

(** The same through [run_calls]: the run ends in a panic. *)
Lemma run_two_calls_at_target :
  panicked (run_calls 300 false [(5, 5); (5, 5)] (fresh_cb [])) = true.
Proof. reflexivity. Qed.

(** The callback of a follow session up to round 10, when the chain
    is at round 100: the beacon of round 10 closes [done], and the
    beacon of round 11, clamped to target 11, closes it again. *)
Lemma follow_callback_after_target_panics :
  let cb := fst (sendProgressCallback 300 10 100) in
  cb 10 false (fresh_cb [])
  = Normal {| stream := [{| Current := 10; Target := 10 |}]; done := Closed |}
  /\ panicked (cb 11 false
                 {| stream := [{| Current := 10; Target := 10 |}]; done := Closed |})
     = true.
Proof. split; reflexivity. Qed.

(** In continuous mode [done] is never closed. *)
Lemma keepFollowing_never_closes S calls : forall st,
  done st = Open ->
  panicked (run_calls S true calls st) = false
  /\ done (state_of (run_calls S true calls st)) = Open.
Proof.
  induction calls as [|[curr targ] rest IH]; intros st Hst; simpl.
  - split; [reflexivity | assumption].
  - unfold plainProgressCb. cbn [negb andb].
    destruct (rate_limited S curr (clamp curr targ)).
    + apply IH; assumption.
    + apply IH; assumption.
Qed.

End CompletionFacts.


(* ================================================================== *)
(** * The sync guard: acquisition, contention, release *)
(* ================================================================== *)
Module GuardFacts.
Import Go Progress Control Scenarios.

Lemma new_events_app w w' l : log w' = log w ++ l -> new_events w w' = l.
Proof.
  unfold new_events; intros ->.
  rewrite skipn_app, skipn_all, Nat.sub_diag; reflexivity.
Qed.

Lemma log_emit e w : log (emit e w) = log w ++ [e].
Proof. reflexivity. Qed.

Lemma bp_emit e w : bp (emit e w) = bp w.
Proof. reflexivity. Qed.

(** Normal form of a log built by successive [emit]s. *)
Ltac norm_log :=
  unfold Lock, Unlock, call_cancel, set_syncerCancel, WithCancel, emit;
  cbn [log bp next_scope syncerCancel beacon Addr beaconID fst snd];
  repeat rewrite <- app_assoc; cbn [app].

Lemma release_cleared w :
  syncerCancel (bp w) = None ->
  bp (release w) = bp w
  /\ new_events w (release w) = [EvLock; EvSetSyncerCancel None; EvUnlock].
Proof.
  intros H. unfold release. norm_log. rewrite H. norm_log. split.
  - destruct w as [[sc b a i] n l]; simpl in *; subst; reflexivity.
  - apply new_events_app. norm_log. reflexivity.
Qed.

Lemma release_clears w : syncerCancel (bp (release w)) = None.
Proof. unfold release. norm_log. destruct (syncerCancel (bp w)); reflexivity. Qed.

(** C2, as amended.  While a cancellation handle is stored, a follow
    invocation, and a check invocation on a node that has a local
    beacon instance, return "syncing is already in progress"; the node
    is left as it was, the log gaining only the lock and unlock of the
    test.  The deferred release calls the stored cancel function and
    then clears the handle; run again on the cleared handle it calls
    nothing and leaves the node unchanged. *)
Theorem guard_contention_and_release
    (Packet : Type) (env : Env Packet) (sched : list Occ)
    (req : StartSyncRequest) (w : World) (c : CancelFunc) :
  syncerCancel (bp w) = Some c ->
  let busy := {| bp := bp w; next_scope := next_scope w;
                 log := log w ++ [EvLock; EvUnlock] |} in
  StartFollowChain env req w = (Returned (Some err_syncing), busy)
  /\ (beacon (bp w) <> None ->
      StartCheckChain sched req w = (Returned (Some err_syncing), busy))
  /\ new_events w (release w)
     = [EvLock; EvCancel c; EvSetSyncerCancel None; EvUnlock]
  /\ syncerCancel (bp (release w)) = None
  /\ new_events (release w) (release (release w))
     = [EvLock; EvSetSyncerCancel None; EvUnlock]
  /\ bp (release (release w)) = bp (release w).
Proof.
  intros H busy. split; [| split; [| split; [| split; [| split]]]].
  - unfold StartFollowChain. norm_log. rewrite H.
    unfold busy. norm_log. reflexivity.
  - intros Hb. unfold StartCheckChain.
    destruct (beacon (bp w)) as [h|]; [| congruence].
    norm_log. rewrite H. unfold busy. norm_log. reflexivity.
  - apply new_events_app. unfold release. norm_log. rewrite H.
    norm_log. reflexivity.
  - apply release_clears.
  - exact (proj2 (release_cleared (release w) (release_clears w))).
  - exact (proj1 (release_cleared (release w) (release_clears w))).
Qed.

Lemma guard_contention_and_release_witness :
  StartFollowChain env_trivial req_any w_busy
  = (Returned (Some err_syncing),
     {| bp := bp w_busy; next_scope := 1; log := [EvLock; EvUnlock] |})
  /\ StartCheckChain [] req_any w_busy
     = (Returned (Some err_syncing),
        {| bp := bp w_busy; next_scope := 1; log := [EvLock; EvUnlock] |})
  /\ new_events w_busy (release w_busy)
     = [EvLock; EvCancel 0%nat; EvSetSyncerCancel None; EvUnlock]
  /\ bp (release (release w_busy)) = bp (release w_busy).
Proof.
  destruct (guard_contention_and_release string env_trivial [] req_any
              w_busy 0%nat eq_refl) as (Hf & Hc & Hr & _ & _ & Hi).
  split; [exact Hf |].
  split; [apply Hc; discriminate |].
  split; [exact Hr | exact Hi].
Defined.

(** C2 as stated fails for a check invocation on a node that is
    following a chain but has no local beacon instance: the
    precondition test of line 406 answers first. *)
Lemma check_while_following_counterexample :
  syncerCancel (bp w_following) = Some 0%nat
  /\ fst (StartCheckChain [] req_any w_following)
     <> Returned (Some err_syncing).
Proof. split; [reflexivity | simpl; discriminate]. Qed.

(** C10. Without a local beacon instance a check invocation returns
    the not-bootstrapped error whatever the guard holds, and the world
    is untouched: the lock is not taken, the handle is neither read
    nor written. *)
Theorem check_precondition_before_guard
    (sched : list Occ) (req : StartSyncRequest) (w : World) :
  beacon (bp w) = None ->
  StartCheckChain sched req w = (Returned (Some err_beacon_nil), w).
Proof. intros H. unfold StartCheckChain. rewrite H. reflexivity. Qed.

Lemma check_precondition_before_guard_witness :
  StartCheckChain [OccDone] req_any w_following
  = (Returned (Some err_beacon_nil), w_following).
Proof.
  apply (check_precondition_before_guard [OccDone] req_any w_following).
  reflexivity.
Defined.

End GuardFacts.


(* ================================================================== *)
(** * Check and correct: the dry-run short circuit *)
(* ================================================================== *)
Module CheckFacts.
Import Go Progress Control GuardFacts Scenarios.

(** Log of [check_body] up to its return, in each of its branches. *)
Lemma check_body_log h sched req w :
  exists l, log (snd (check_body h sched req w)) = log w ++ l
            /\ bp (snd (check_body h sched req w)) = bp w
            /\ (count is_CorrectChain l = 0%nat \/
                (exists f, fst (ValidateChain h (UpTo req)) = f /\ f <> []
                           /\ Nodes req <> [Addr (bp w)])).
Proof.
  unfold check_body.
  destruct (ValidateChain h (UpTo req)) as [faulty [e|]]; norm_log.
  - eexists; split; [reflexivity | split; [reflexivity | left; reflexivity]].
  - destruct (Nat.eqb (List.length faulty) 0) eqn:Elen; cbn [orb].
    + norm_log. eexists; split; [reflexivity | split; [reflexivity | left; reflexivity]].
    + assert (Hne : faulty <> []) by (intros ->; discriminate).
      destruct (Nodes req) as [|n [|n' rest]] eqn:En.
      * destruct (CorrectChain h faulty _); norm_log;
          (eexists; split; [reflexivity | split; [reflexivity |]]);
          right; exists faulty; (split; [reflexivity | split; [assumption | discriminate]]).
      * destruct (String.eqb_spec n (Addr (bp w))) as [->|Hn].
        -- norm_log. eexists; split; [reflexivity | split; [reflexivity | left; reflexivity]].
        -- destruct (CorrectChain h faulty _); norm_log;
             (eexists; split; [reflexivity | split; [reflexivity |]]);
             right; exists faulty;
             (split; [reflexivity | split; [assumption | congruence]]).
      * destruct (CorrectChain h faulty _); norm_log;
          (eexists; split; [reflexivity | split; [reflexivity |]]);
          right; exists faulty; (split; [reflexivity | split; [assumption | discriminate]]).
Qed.

Lemma count_app p l1 l2 :
  count p (l1 ++ l2) = (count p l1 + count p l2)%nat.
Proof. unfold count. rewrite filter_app, length_app. reflexivity. Qed.

(** C8, as amended.  A check invocation whose peer list is exactly
    the node's own address makes no correction call on any path.  When
    moreover the validation pass ran and returned without error (a
    local beacon instance exists and the guard was free), an empty
    faulty set or that peer list make the invocation return success
    with no correction call, the guard released. *)
Theorem check_dry_run_short_circuit
    (sched : list Occ) (req : StartSyncRequest) (w : World)
    (h : Handler) (faulty : list Z) :
  let r := StartCheckChain sched req w in
  (Nodes req = [Addr (bp w)] ->
   count is_CorrectChain (new_events w (snd r)) = 0%nat)
  /\ (beacon (bp w) = Some h -> syncerCancel (bp w) = None ->
      ValidateChain h (UpTo req) = (faulty, None) ->
      faulty = [] \/ Nodes req = [Addr (bp w)] ->
      fst r = Returned None
      /\ count is_CorrectChain (new_events w (snd r)) = 0%nat
      /\ syncerCancel (bp (snd r)) = None).
Proof.
  assert (Hnone : forall h0, beacon (bp w) = Some h0 ->
            syncerCancel (bp w) = None ->
            (Nodes req = [Addr (bp w)] \/ fst (ValidateChain h0 (UpTo req)) = []) ->
            count is_CorrectChain
              (new_events w (snd (StartCheckChain sched req w))) = 0%nat).
  { intros h0 Hb Hs Hdry. unfold StartCheckChain. rewrite Hb. norm_log.
    rewrite Hs. unfold defer.
    match goal with |- context [check_body h0 sched req ?w0] =>
      destruct (check_body_log h0 sched req w0) as (l & Hl & Hbp & Hc);
      destruct (check_body h0 sched req w0) as [[e|] w1] eqn:E
    end; cbn [fst snd log bp] in *.
    - rewrite (new_events_app w (release w1)
                 ([EvLock; EvSetSyncerCancel (Some (next_scope w)); EvUnlock] ++ l
                  ++ [EvLock; EvCancel (next_scope w); EvSetSyncerCancel None; EvUnlock])).
      + rewrite !count_app.
        destruct Hc as [Hc | (f & Hf & Hne & Hnodes)].
        * rewrite Hc. reflexivity.
        * destruct Hdry as [Hd | Hd]; [contradiction | congruence].
      + unfold release. norm_log. rewrite Hbp. norm_log. rewrite Hl.
        repeat rewrite <- app_assoc. reflexivity.
    - rewrite (new_events_app w w1
                 ([EvLock; EvSetSyncerCancel (Some (next_scope w)); EvUnlock] ++ l)).
      + rewrite !count_app.
        destruct Hc as [Hc | (f & Hf & Hne & Hnodes)].
        * rewrite Hc. reflexivity.
        * destruct Hdry as [Hd | Hd]; [contradiction | congruence].
      + rewrite Hl. repeat rewrite <- app_assoc. reflexivity. }
  intros r. split.
  - intros Hnodes. unfold r.
    destruct (beacon (bp w)) as [h0|] eqn:Hb.
    + destruct (syncerCancel (bp w)) as [c|] eqn:Hs.
      * unfold StartCheckChain. rewrite Hb. norm_log. rewrite Hs.
        cbn [snd]. rewrite (new_events_app w _ [EvLock; EvUnlock]); reflexivity.
      * apply (Hnone h0); auto.
    + unfold StartCheckChain. rewrite Hb. cbn [snd].
      rewrite (new_events_app w w []); [reflexivity | symmetry; apply app_nil_r].
  - intros Hb Hs Hv Hdry. split; [| split].
    + unfold r, StartCheckChain. rewrite Hb. norm_log. rewrite Hs.
      unfold defer, check_body. rewrite Hv. norm_log.
      destruct Hdry as [-> | ->].
      * reflexivity.
      * rewrite String.eqb_refl, orb_true_r. reflexivity.
    + apply (Hnone h); auto.
      rewrite Hv. destruct Hdry; [right | left]; assumption.
    + unfold r, StartCheckChain. rewrite Hb. norm_log. rewrite Hs.
      unfold defer, check_body. rewrite Hv. norm_log.
      destruct Hdry as [-> | ->].
      * reflexivity.
      * rewrite String.eqb_refl, orb_true_r. reflexivity.
Qed.

Lemma check_dry_run_short_circuit_witness :
  count is_CorrectChain
    (new_events (node h_faulty)
       (snd (StartCheckChain [] req_dry_run (node h_faulty)))) = 0%nat
  /\ fst (StartCheckChain [] req_dry_run (node h_faulty)) = Returned None
  /\ syncerCancel (bp (snd (StartCheckChain [] req_dry_run (node h_faulty)))) = None.
Proof.
  destruct (check_dry_run_short_circuit [] req_dry_run (node h_faulty)
              h_faulty [3; 8]) as [H1 H2].
  split; [apply H1; reflexivity |].
  destruct H2 as (Hr & _ & Hg);
    [reflexivity | reflexivity | reflexivity | right; reflexivity |].
  split; [exact Hr | exact Hg].
Defined.

(** C8 as stated fails: with the peer list reduced to the node's own
    address, a validation pass that fails makes the invocation return
    that failure (line 447), not success. *)
Lemma dry_run_validation_error_counterexample :
  Nodes req_dry_run = [Addr (bp (node h_failing))]
  /\ fst (StartCheckChain [] req_dry_run (node h_failing))
     = Returned (Some (external "unable to read the local chain"))
  /\ fst (StartCheckChain [] req_dry_run (node h_failing)) <> Returned None.
Proof. split; [reflexivity | split; [reflexivity | discriminate]]. Qed.

(** The correction pass does run when faulty rounds exist and another
    peer is named: the short circuit is what prevents it above. *)
Lemma correction_runs_otherwise :
  count is_CorrectChain
    (log (snd (StartCheckChain [OccDone] req_any (node h_faulty)))) = 1%nat.
Proof. reflexivity. Qed.

End CheckFacts.


(* ================================================================== *)
(** * Follow: the retry loop and the release of resources *)
(* ================================================================== *)
Module FollowFacts.
Import Go Progress Control GuardFacts Scenarios.

(** With the nil channel of line 374 the [select] never takes its
    third case: returns of [syncer.Sync] leave it waiting. *)
Lemma follow_select_nil_chan period sched : forall syncCtx w,
  only_sync_returns sched ->
  follow_select chan_nil period syncCtx sched w = (Blocked, w).
Proof.
  induction sched as [|o rest IH]; intros syncCtx w Hall; simpl.
  - reflexivity.
  - inversion Hall as [|o' rest' Ho Hrest]; subst.
    destruct o; try contradiction. apply IH; assumption.
Qed.

Lemma only_sync_returns_failures (N : nat) (e : error) :
  only_sync_returns (failures_then_success N e).
Proof.
  apply Forall_app; split.
  - induction N; simpl; constructor; auto.
  - repeat constructor.
Qed.

(** The loop on such a schedule: one [Sync], then blocked. *)
Lemma follow_loop_nil_chan (period : Z) (sched : list Occ) (w : World) :
  only_sync_returns sched ->
  follow_loop errChan period sched w
  = (Blocked,
     {| bp := bp w; next_scope := S (next_scope w);
        log := log w ++ [EvSync (next_scope w)] |}).
Proof.
  intros Hs. unfold follow_loop, errChan. norm_log.
  apply follow_select_nil_chan; assumption.
Qed.

(** C1, on the code.  Whatever the number [N] of failures of the sync
    engine before it would succeed, a follow session whose bootstrap
    succeeded starts [syncer.Sync] once, never sleeps, and stays blocked
    in its [select] holding the guard: the result of [Sync] is sent on a
    nil channel (line 374), so the retry branch is never taken. *)
Theorem follow_never_retries (N : nat) :
  let r := StartFollowChain (env_failing N) req_follow idle in
  fst r = Blocked
  /\ log (snd r)
     = [EvLock; EvSetSyncerCancel (Some 0%nat); EvUnlock;
        EvCreateStore; EvStorePut; EvNewCallbackStore;
        EvAddCallback; EvSyncerRun; EvSync 1%nat]
  /\ count is_Sync (log (snd r)) = 1%nat
  /\ count is_Sleep (log (snd r)) = 0%nat.
Proof.
  intros r.
  assert (E : r = (Blocked,
     {| bp := {| syncerCancel := Some 0%nat; beacon := None;
                 Addr := self; beaconID := "default" |};
        next_scope := 2;
        log := [EvLock; EvSetSyncerCancel (Some 0%nat); EvUnlock;
                EvCreateStore; EvStorePut; EvNewCallbackStore;
                EvAddCallback; EvSyncerRun; EvSync 1%nat] |})).
  { unfold r, StartFollowChain, follow_body, defer.
    cbn -[follow_loop failures_then_success].
    rewrite follow_loop_nil_chan by apply only_sync_returns_failures.
    reflexivity. }
  rewrite E. repeat split.
Qed.

(** Had the channel been made, each return of [Sync] would cancel the
    sub-scope, sleep one period and start [Sync] again under a fresh
    sub-scope. *)
Lemma made_channel_retries (e : error) (period : Z) (w : World) :
  new_events w (snd (follow_loop chan_make period [OccSyncReturns (Some e); OccDone] w))
  = [EvSync (next_scope w); EvCancel (next_scope w); EvSleep period;
     EvSync (S (next_scope w)); EvCancel (S (next_scope w))]
  /\ fst (follow_loop chan_make period [OccSyncReturns (Some e); OccDone] w)
     = Returned None.
Proof.
  split; [apply new_events_app |]; unfold follow_loop; simpl; norm_log; reflexivity.
Qed.

(** The whole of [StartFollowChain] on one failure of [Sync]: one
    [EvSync], no sleep, and the invocation has not returned. *)
Lemma follow_session_one_failure :
  StartFollowChain env_ok req_follow idle
  = (Blocked,
     {| bp := {| syncerCancel := Some 0%nat; beacon := None;
                 Addr := self; beaconID := "default" |};
        next_scope := 2;
        log := [EvLock; EvSetSyncerCancel (Some 0%nat); EvUnlock;
                EvCreateStore; EvStorePut; EvNewCallbackStore;
                EvAddCallback; EvSyncerRun; EvSync 1%nat] |}).
Proof. reflexivity. Qed.

(** C9, on the code.  When [beacon.NewSchemeStore] fails (line 344),
    after the store was created, the genesis beacon inserted and the
    scheme found, the invocation returns that error and releases the
    guard, but the store is never closed. *)
Theorem follow_leaks_store_on_scheme_store_error
    (Packet : Type) (env : Env Packet) (req : StartSyncRequest)
    (w : World) (info : Info) (err : error) :
  syncerCancel (bp w) = None ->
  chainInfoFromPeers env (peers_of (Addr (bp w)) (Nodes req)) = inl info ->
  bytes_Equal (Hash info) (ChainHash req) = true ->
  CompareBeaconIDs env (beaconID (bp w)) (ID info) = true ->
  createDBStore env = None ->
  store_Put env = None ->
  SchemeFromName env (SchemeName info) = None ->
  NewSchemeStore env = Some err ->
  let r := StartFollowChain env req w in
  fst r = Returned (Some err)
  /\ new_events w (snd r)
     = [EvLock; EvSetSyncerCancel (Some (next_scope w)); EvUnlock;
        EvCreateStore; EvStorePut;
        EvLock; EvCancel (next_scope w); EvSetSyncerCancel None; EvUnlock]
  /\ count is_CreateStore (new_events w (snd r)) = 1%nat
  /\ count is_StoreClose (new_events w (snd r)) = 0%nat
  /\ syncerCancel (bp (snd r)) = None.
Proof.
  intros Hs Hci Hhash Hid Hdb Hput Hscheme Hstore r.
  assert (E : r = (Returned (Some err),
     {| bp := {| syncerCancel := None; beacon := beacon (bp w);
                 Addr := Addr (bp w); beaconID := beaconID (bp w) |};
        next_scope := S (next_scope w);
        log := log w ++
          [EvLock; EvSetSyncerCancel (Some (next_scope w)); EvUnlock;
           EvCreateStore; EvStorePut;
           EvLock; EvCancel (next_scope w); EvSetSyncerCancel None; EvUnlock] |})).
  { unfold r, StartFollowChain. norm_log. rewrite Hs.
    unfold defer, follow_body. norm_log.
    rewrite Hci, Hhash, Hid, Hdb, Hput, Hscheme, Hstore. cbn [negb].
    unfold release. norm_log. reflexivity. }
  rewrite E. cbn [fst snd bp syncerCancel].
  match goal with |- context [new_events w ?w1] =>
    rewrite (new_events_app w w1 _ (eq_refl (log w1)))
  end.
  repeat split.
Qed.

Lemma follow_leaks_store_on_scheme_store_error_witness :
  fst (StartFollowChain env_bad_scheme_store req_follow idle)
  = Returned (Some (external "unable to read the last beacon"))
  /\ new_events idle (snd (StartFollowChain env_bad_scheme_store req_follow idle))
     = [EvLock; EvSetSyncerCancel (Some 0%nat); EvUnlock;
        EvCreateStore; EvStorePut;
        EvLock; EvCancel 0%nat; EvSetSyncerCancel None; EvUnlock]
  /\ count is_CreateStore
       (new_events idle (snd (StartFollowChain env_bad_scheme_store req_follow idle)))
     = 1%nat
  /\ count is_StoreClose
       (new_events idle (snd (StartFollowChain env_bad_scheme_store req_follow idle)))
     = 0%nat
  /\ syncerCancel (bp (snd (StartFollowChain env_bad_scheme_store req_follow idle)))
     = None.
Proof.
  apply (follow_leaks_store_on_scheme_store_error string env_bad_scheme_store
           req_follow idle info_a (external "unable to read the last beacon"));
    reflexivity.
Defined.

(** The sibling path of lines 331-335 closes the store. *)
Lemma follow_closes_store_on_put_error :
  log (snd (StartFollowChain env_bad_put req_follow idle))
  = [EvLock; EvSetSyncerCancel (Some 0%nat); EvUnlock;
     EvCreateStore; EvStorePut; EvStoreClose;
     EvLock; EvCancel 0%nat; EvSetSyncerCancel None; EvUnlock].
Proof. reflexivity. Qed.

(** Completion: everything opened is closed, innermost first. *)
Lemma follow_closes_all_on_done :
  StartFollowChain env_done req_follow idle
  = (Returned None,
     {| bp := bp idle; next_scope := 2;
        log := [EvLock; EvSetSyncerCancel (Some 0%nat); EvUnlock;
                EvCreateStore; EvStorePut; EvNewCallbackStore; EvAddCallback;
                EvSyncerRun; EvSync 1%nat; EvCancel 1%nat;
                EvSyncerStop; EvRemoveCallback; EvCbStoreClose;
                EvLock; EvCancel 0%nat; EvSetSyncerCancel None; EvUnlock] |}).
Proof. reflexivity. Qed.

(** The guard is released on every return of [StartFollowChain] that
    had taken it. *)
Lemma follow_releases_guard (Packet : Type) (env : Env Packet)
    (req : StartSyncRequest) (w w' : World) (err : option error) :
  syncerCancel (bp w) = None ->
  StartFollowChain env req w = (Returned err, w') ->
  syncerCancel (bp w') = None.
Proof.
  intros Hs. unfold StartFollowChain. norm_log. rewrite Hs. unfold defer.
  match goal with |- context [follow_body env req ?w0] =>
    destruct (follow_body env req w0) as [[e|] w1] end.
  - intros H; inversion H; subst. apply release_clears.
  - discriminate.
Qed.

End FollowFacts.


(* ================================================================== *)
(** * Fetching the chain info from peers *)
(* ================================================================== *)
Module ChainInfoFacts.
Import Go Control Scenarios.

Section Loop.
Variable Packet : Type.
Variable env : Env Packet.

Lemma chainInfo_loop_app l1 l2 : forall info err,
  chainInfo_loop env (l1 ++ l2) info err
  = let '(info', err') := chainInfo_loop env l1 info err in
    chainInfo_loop env l2 info' err'.
Proof.
  induction l1 as [|p l1 IH]; intros info err; simpl.
  - reflexivity.
  - destruct (ChainInfo env p) as [ci [e|]].
    + apply IH.
    + destruct (InfoFromProto env ci) as [i' e']. apply IH.
Qed.

(** A peer that cannot be reached leaves the candidate in place and
    becomes the last error. *)
Lemma unreachable_peer_step p ci e info err :
  ChainInfo env p = (ci, Some e) ->
  chainInfo_loop env [p] info err = (info, Some e).
Proof. intros H; simpl; rewrite H; reflexivity. Qed.

(** A peer that answers replaces both variables by what
    [InfoFromProto] returns, also when that is a failure. *)
Lemma reachable_peer_step p ci info err :
  ChainInfo env p = (ci, None) ->
  chainInfo_loop env [p] info err = InfoFromProto env ci.
Proof.
  intros H; simpl; rewrite H.
  destruct (InfoFromProto env ci); reflexivity.
Qed.

(** When no peer can be reached the call fails with the error of
    the last peer. *)
Lemma all_unreachable peers p ci e :
  (forall q, In q peers -> exists ci' e', ChainInfo env q = (ci', Some e')) ->
  ChainInfo env p = (ci, Some e) ->
  chainInfoFromPeers env (peers ++ [p])
  = inr (fmt_Errorf_w "unable to get chain info successfully. Last err: %w" e).
Proof.
  intros Hall Hp. unfold chainInfoFromPeers.
  rewrite chainInfo_loop_app.
  assert (Hnone : forall l err,
             (forall q, In q l -> exists ci' e', ChainInfo env q = (ci', Some e')) ->
             exists err', chainInfo_loop env l None err = (None, err')).
  { induction l as [|q l IH]; intros err Hl; simpl.
    - eexists; reflexivity.
    - destruct (Hl q (or_introl eq_refl)) as (ci' & e' & Hq). rewrite Hq.
      apply IH. intros q' Hq'. apply Hl. right; assumption. }
  destruct (Hnone peers None Hall) as (err' & ->).
  simpl. rewrite Hp. reflexivity.
Qed.

(** Whatever was found before, a last peer that answers with a
    packet [InfoFromProto] rejects (returning no info) makes the
    call fail. *)
Lemma last_parse_failure_discards peers p ci e :
  ChainInfo env p = (ci, None) ->
  InfoFromProto env ci = (None, Some e) ->
  chainInfoFromPeers env (peers ++ [p])
  = inr (fmt_Errorf_w "unable to get chain info successfully. Last err: %w" e).
Proof.
  intros Hp Hparse. unfold chainInfoFromPeers.
  rewrite chainInfo_loop_app.
  destruct (chainInfo_loop env peers None None) as [i0 e0].
  rewrite (reachable_peer_step p ci i0 e0 Hp), Hparse. reflexivity.
Qed.

(** A last peer that answers with a good packet wins. *)
Lemma last_good_wins peers p ci i :
  ChainInfo env p = (ci, None) ->
  InfoFromProto env ci = (Some i, None) ->
  chainInfoFromPeers env (peers ++ [p]) = inl i.
Proof.
  intros Hp Hparse. unfold chainInfoFromPeers.
  rewrite chainInfo_loop_app.
  destruct (chainInfo_loop env peers None None) as [i0 e0].
  rewrite (reachable_peer_step p ci i0 e0 Hp), Hparse. reflexivity.
Qed.

End Loop.

(** C4, on the code.  The first peer alone yields its chain info; with
    a second peer whose packet does not parse, the assignment of line
    518 overwrites the info already found and the call fails although
    a peer yielded a parseable response. *)
Theorem chainInfo_lost_on_later_parse_failure :
  chainInfoFromPeers env_second_garbled ["10.0.0.2:4444"%string] = inl info_a
  /\ chainInfoFromPeers env_second_garbled
       ["10.0.0.2:4444"%string; "10.0.0.3:4444"%string]
     = inr (fmt_Errorf_w "unable to get chain info successfully. Last err: %w"
              (external "invalid chain info")).
Proof. split; reflexivity. Qed.

End ChainInfoFacts.

Module GroupFacts.
Import Go Group Scenarios.

Lemma error_kinds_distinct : NoDup error_kinds.
Proof.
  unfold error_kinds.
  repeat (constructor; [simpl; intuition discriminate |]).
  constructor.
Qed.

Lemma past_check now t : (now <=? t) = negb (t <? now).
Proof. destruct (Z.leb_spec now t), (Z.ltb_spec t now); try reflexivity; lia. Qed.

(** C7, as amended.  [(nil, nil)] is rejected and [(nil, new)]
    accepted.  For two groups the result is the error of the first
    failing check among: equal genesis time, equal period, equal beacon
    identifier, equal genesis seed, transition time not before the
    current time; the six errors are pairwise distinct.  The body
    writes to neither group: after the call the groups are what the
    seed accessor left, and the accessor runs (on the old group, then on
    the new one) only once the first three checks have passed.  With an
    old group and a nil new group line 608 dereferences nil. *)
Theorem group_transition_checks_and_writes
    (CompareBeaconIDs : string -> string -> bool)
    (GetGenesisSeed : Group -> list Z * Group) (now : Z) (o n : Group) :
  let validate := validateGroupTransition CompareBeaconIDs GetGenesisSeed now in
  validate None None = (Normal (Some err_nil_group), (None, None))
  /\ validate None (Some n) = (Normal None, (None, Some n))
  /\ validate (Some o) (Some n)
     = (Normal (first_failure
                  (checks_in_order CompareBeaconIDs GetGenesisSeed now o n)),
        (Some (fst (groups_after CompareBeaconIDs GetGenesisSeed o n)),
         Some (snd (groups_after CompareBeaconIDs GetGenesisSeed o n))))
  /\ NoDup error_kinds
  /\ validate (Some o) None
     = (Panic "invalid memory address or nil pointer dereference" None,
        (Some o, None)).
Proof.
  intros validate.
  split; [reflexivity |]. split; [reflexivity |].
  split; [| split; [apply error_kinds_distinct | reflexivity]].
  unfold validate, validateGroupTransition, checks_in_order, groups_after,
    reaches_seeds, first_failure.
  destruct (GenesisTime o =? GenesisTime n); cbn [negb andb fst snd]; [| reflexivity].
  destruct (Period o =? Period n); cbn [negb andb fst snd]; [| reflexivity].
  destruct (CompareBeaconIDs (ID o) (ID n)); cbn [negb andb fst snd]; [| reflexivity].
  destruct (GetGenesisSeed o) as [seed_o o'].
  destruct (GetGenesisSeed n) as [seed_n n'].
  cbn [fst snd].
  destruct (bytes_Equal seed_o seed_n); cbn [negb]; [| reflexivity].
  rewrite past_check.
  destruct (TransitionTime n' <? now); reflexivity.
Qed.

(** C7 as stated fails.  With the caching accessor two groups whose
    seed was never computed come back from the predicate with a seed
    stored in each; and with an old group and a nil new group the
    predicate panics instead of checking. *)
Lemma group_transition_writes_seed_counterexample :
  validateGroupTransition String.eqb caching_seed 1700000000
    (Some (g_unseeded 1600000300)) (Some (g_unseeded 1700000900))
  = (Normal None,
     (Some {| GenesisTime := 1600000000; Period := 30; ID := "default";
              GenesisSeed := [0; 30]; TransitionTime := 1600000300 |},
      Some {| GenesisTime := 1600000000; Period := 30; ID := "default";
              GenesisSeed := [0; 30]; TransitionTime := 1700000900 |}))
  /\ snd (validateGroupTransition String.eqb caching_seed 1700000000
            (Some (g_unseeded 1600000300)) (Some (g_unseeded 1700000900)))
     <> (Some (g_unseeded 1600000300), Some (g_unseeded 1700000900))
  /\ panicked (fst (validateGroupTransition String.eqb caching_seed 1700000000
                      (Some g_old) None)) = true.
Proof.
  split; [reflexivity |]. split; [| reflexivity].
  cbv. intros H. inversion H.
Qed.

(** The cases the specification lists as tests. *)
Lemma group_transition_examples :
  fst (validateGroupTransition String.eqb read_seed 1700000000
         (Some g_old) (Some (g_next 1600000000)))
  = Normal (Some err_transition_past)
  /\ fst (validateGroupTransition String.eqb read_seed 1700000000
            (Some g_old) (Some (g_next 1700000900)))
     = Normal None
  /\ fst (validateGroupTransition String.eqb read_seed 1700000000
            (Some g_old) (Some g_other_period))
     = Normal (Some err_period).
Proof. repeat split. Qed.

(** An old group with a nil new group: line 608 dereferences nil. *)
Lemma old_without_new_panics cmp seed now o :
  panicked (fst (validateGroupTransition cmp seed now (Some o) None)) = true.
Proof. reflexivity. Qed.

End GroupFacts.

(* ================================================================== *)
(** * More on the progress callback *)
(* ================================================================== *)
Module ProgressRunFacts.
Import Go Progress ProgressRuns ProgressFacts.

Lemma plainProgressCb_continuous S curr targ st :
  plainProgressCb S true curr targ st
  = Normal (if rate_limited S curr (clamp curr targ) then st
            else stream_Send {| Current := curr; Target := clamp curr targ |} st).
Proof.
  unfold plainProgressCb. cbn [negb andb].
  destruct (rate_limited S curr (clamp curr targ)); reflexivity.
Qed.

Lemma run_calls_continuous S calls : forall st,
  run_calls S true calls st
  = Normal {| stream := stream st ++ map message_of (passing S calls);
              done := done st |}.
Proof.
  induction calls as [|[curr targ] rest IH]; intros st; simpl.
  - rewrite app_nil_r. destruct st; reflexivity.
  - rewrite plainProgressCb_continuous.
    unfold passing in *. cbn [filter fst snd].
    destruct (rate_limited S curr (clamp curr targ)); cbn [negb].
    + apply IH.
    + rewrite IH. unfold stream_Send, message_of; cbn [stream done map fst snd].
      rewrite <- app_assoc. reflexivity.
Qed.

(** X1. In continuous mode ([keepFollowing = true]) no sequence of
    calls panics or touches [done]; the stream gains, in order, one
    message per call that passes the rate limit, and nothing else. *)
Theorem continuous_mode_never_completes S calls st :
  panicked (run_calls S true calls st) = false
  /\ done (state_of (run_calls S true calls st)) = done st
  /\ stream (state_of (run_calls S true calls st))
     = stream st ++ map message_of (passing S calls).
Proof. rewrite run_calls_continuous. repeat split. Qed.

Lemma rate_limited_needs_gap S curr targ :
  0 <= S -> rate_limited S curr (clamp curr targ) = true -> curr < targ.
Proof.
  intros HS H. unfold rate_limited in H.
  apply andb_true_iff in H as [H _]. apply andb_true_iff in H as [_ H].
  destruct (Z.gtb_spec curr targ) as [Hgt|Hle].
  - rewrite (clamp_over curr targ) in H by lia.
    unfold sub64 in H. rewrite Z.sub_diag, Z.mod_0_l in H by lia.
    apply Z.gtb_lt in H. lia.
  - destruct (Z.eq_dec curr targ) as [->|Hne]; [| lia].
    rewrite clamp_id in H by lia.
    unfold sub64 in H. rewrite Z.sub_diag, Z.mod_0_l in H by lia.
    apply Z.gtb_lt in H. lia.
Qed.

Lemma one_shot_step S curr targ st :
  0 <= S -> done st = Open ->
  panicked (plainProgressCb S false curr targ st) = false
  /\ (done (state_of (plainProgressCb S false curr targ st)) = Closed
      <-> 0 < curr /\ targ <= curr).
Proof.
  intros HS Hopen. unfold plainProgressCb.
  destruct (rate_limited S curr (clamp curr targ)) eqn:Erl.
  - apply (rate_limited_needs_gap S curr targ HS) in Erl.
    cbn [panicked state_of]. split; [reflexivity |].
    rewrite Hopen. split; [discriminate | lia].
  - cbn [negb andb].
    destruct (Z.gtb_spec (clamp curr targ) 0) as [Hpos|Hnpos]; cbn [andb].
    + destruct (Z.eqb_spec curr (clamp curr targ)) as [Heq|Hne].
      * unfold close_done, stream_Send; cbn [done stream]. rewrite Hopen.
        cbn [close panicked state_of done]. split; [reflexivity |].
        split; [intros _ | reflexivity].
        unfold clamp in Heq, Hpos. destruct (Z.gtb_spec curr targ); lia.
      * cbn [panicked state_of stream_Send done]. split; [reflexivity |].
        rewrite Hopen. split; [discriminate |].
        intros [H0 Hle]. exfalso. apply Hne.
        unfold clamp. destruct (Z.gtb_spec curr targ); lia.
    + cbn [panicked state_of stream_Send done]. split; [reflexivity |].
      rewrite Hopen. split; [discriminate |].
      intros [H0 Hle]. pose proof (clamp_ge curr targ). lia.
Qed.

(** X2. In one-shot mode ([keepFollowing = false]) a call on an open
    [done] never panics, and it closes [done] exactly when the current
    round is positive and not below the target: overshooting the target
    completes too, and round 0 never does. *)
Theorem one_shot_completion_iff S curr targ st :
  0 <= S -> done st = Open ->
  panicked (plainProgressCb S false curr targ st) = false
  /\ (done (state_of (plainProgressCb S false curr targ st)) = Closed
      <-> 0 < curr /\ targ <= curr).
Proof. apply one_shot_step. Qed.

Lemma one_shot_completion_iff_witness :
  panicked (plainProgressCb 300 false 12 10 (fresh_cb [])) = false
  /\ (done (state_of (plainProgressCb 300 false 12 10 (fresh_cb []))) = Closed
      <-> 0 < 12 /\ 10 <= 12).
Proof.
  apply (one_shot_completion_iff 300 12 10 (fresh_cb [])); [lia | reflexivity].
Defined.

Lemma rounds_S n : rounds (S n) = rounds n ++ [Z.of_nat (S n)].
Proof. unfold rounds. rewrite seq_S, map_app. reflexivity. Qed.

Lemma In_rounds c n : In c (rounds n) -> 1 <= c <= Z.of_nat n.
Proof.
  unfold rounds. rewrite in_map_iff. intros (k & <- & Hk).
  apply in_seq in Hk. lia.
Qed.

Lemma filter_length_le {A} (p q : A -> bool) (l : list A) :
  (forall x, In x l -> p x = true -> q x = true) ->
  (List.length (filter p l) <= List.length (filter q l))%nat.
Proof.
  induction l as [|x l IH]; intros H; simpl; [lia |].
  assert (IH' := IH (fun y Hy => H y (or_intror Hy))).
  destruct (p x) eqn:Ep.
  - rewrite (H x (or_introl eq_refl) Ep). simpl. lia.
  - destruct (q x); simpl; lia.
Qed.

Lemma filter_orb_length {A} (p q : A -> bool) (l : list A) :
  (List.length (filter (fun x => p x || q x) l)
   <= List.length (filter p l) + List.length (filter q l))%nat.
Proof.
  induction l as [|x l IH]; simpl; [lia |].
  destruct (p x), (q x); simpl; lia.
Qed.

(** Rounds of [1 .. n] that are at least [lo]. *)
Lemma count_tail lo n :
  Z.of_nat (List.length (filter (fun c => lo <=? c) (rounds n)))
  <= Z.max 0 (Z.of_nat n - lo + 1).
Proof.
  induction n as [|n IH].
  - simpl. lia.
  - rewrite rounds_S, filter_app, length_app. cbn [filter].
    destruct (Z.leb_spec lo (Z.of_nat (S n))); cbn [List.length]; lia.
Qed.

Lemma div_succ S n :
  0 < S -> 0 <= n ->
  (n + 1) / S = n / S + (if (n + 1) mod S =? 0 then 1 else 0).
Proof.
  intros HS Hn.
  pose proof (Z.div_mod n S) as Hdm.
  pose proof (Z.mod_pos_bound n S HS) as Hr.
  destruct (Z.eq_dec (n mod S + 1) S) as [Heq|Hne].
  - assert (Hn1 : n + 1 = S * (n / S + 1) + 0) by lia.
    assert (Hm : (n + 1) mod S = 0)
      by (symmetry; apply (Z.mod_unique (n + 1) S (n / S + 1) 0); lia).
    assert (Hd : (n + 1) / S = n / S + 1)
      by (symmetry; apply (Z.div_unique (n + 1) S (n / S + 1) 0); lia).
    rewrite Hm, Hd. reflexivity.
  - assert (Hn1 : n + 1 = S * (n / S) + (n mod S + 1)) by lia.
    assert (Hm : (n + 1) mod S = n mod S + 1)
      by (symmetry; apply (Z.mod_unique (n + 1) S (n / S) (n mod S + 1)); lia).
    assert (Hd : (n + 1) / S = n / S)
      by (symmetry; apply (Z.div_unique (n + 1) S (n / S) (n mod S + 1)); lia).
    rewrite Hm, Hd.
    destruct (Z.eqb_spec (n mod S + 1) 0); lia.
Qed.

(** Rounds of [1 .. n] that are multiples of [k]. *)
Lemma count_multiples k n :
  0 < k ->
  Z.of_nat (List.length (filter (fun c => c mod k =? 0) (rounds n)))
  = Z.of_nat n / k.
Proof.
  intros Hk. induction n as [|n IH].
  - simpl. rewrite Z.div_0_l by lia. reflexivity.
  - rewrite rounds_S, filter_app, length_app. cbn [filter].
    replace (Z.of_nat (S n)) with (Z.of_nat n + 1) by lia.
    rewrite (div_succ k (Z.of_nat n)) by lia.
    destruct ((Z.of_nat n + 1) mod k =? 0); cbn [List.length]; lia.
Qed.

(** During a catch-up a call that passes the rate limit is within
    [S] rounds of the target or on a multiple of [S]. *)
Lemma passing_in_catch_up S n c :
  0 < S -> Z.of_nat n < 2 ^ 64 -> In c (rounds n) ->
  negb (rate_limited S c (clamp c (Z.of_nat n))) = true ->
  (Z.of_nat n - S <=? c) || (c mod S =? 0) = true.
Proof.
  intros HS Hn Hc Hpass. apply In_rounds in Hc.
  rewrite clamp_id in Hpass by lia.
  unfold rate_limited, sub64 in Hpass.
  rewrite Z.mod_small in Hpass by lia.
  destruct (Z.leb_spec (Z.of_nat n - S) c) as [|Hfar]; [reflexivity |].
  destruct (Z.eqb_spec (c mod S) 0) as [|Hmod]; [reflexivity |].
  exfalso.
  replace (Z.of_nat n >? S) with true in Hpass by (symmetry; apply Z.gtb_lt; lia).
  replace (Z.of_nat n - c >? S) with true in Hpass by (symmetry; apply Z.gtb_lt; lia).
  discriminate.
Qed.

(** X3. A catch-up over rounds [1 .. n] with target [n] hands at most
    [n / S + S + 1] messages to the stream: the multiples of [S] and the
    last rounds before the target. *)
Theorem catch_up_message_bound S n :
  0 < S -> Z.of_nat n < 2 ^ 64 ->
  Z.of_nat (List.length
              (stream (state_of (run_calls S true (catch_up n) (fresh_cb [])))))
  <= Z.of_nat n / S + S + 1.
Proof.
  intros HS Hn. rewrite run_calls_continuous. cbn [state_of stream fresh_cb app].
  rewrite length_map. unfold passing, catch_up.
  assert (Hlen : forall (l : list Z) (p : Z * Z -> bool),
            List.length (filter p (map (fun c => (c, Z.of_nat n)) l))
            = List.length (filter (fun c => p (c, Z.of_nat n)) l)).
  { intros l p. induction l as [|x l IH]; simpl; [reflexivity |].
    destruct (p (x, Z.of_nat n)); simpl; rewrite IH; reflexivity. }
  rewrite Hlen. cbn [fst snd].
  pose proof (filter_length_le
                (fun c => negb (rate_limited S c (clamp c (Z.of_nat n))))
                (fun c => (Z.of_nat n - S <=? c) || (c mod S =? 0))
                (rounds n)
                (fun c Hc => passing_in_catch_up S n c HS Hn Hc)) as H1.
  pose proof (filter_orb_length (fun c => Z.of_nat n - S <=? c)
                (fun c => c mod S =? 0) (rounds n)) as H2.
  pose proof (count_tail (Z.of_nat n - S) n) as H3.
  pose proof (count_multiples S n HS) as H4.
  lia.
Qed.

Lemma catch_up_message_bound_witness :
  Z.of_nat (List.length
              (stream (state_of (run_calls 3 true (catch_up 40) (fresh_cb [])))))
  <= Z.of_nat 40 / 3 + 3 + 1.
Proof.
  apply (catch_up_message_bound 3 40); [lia | simpl; lia].
Defined.

(** X4. Whatever the mode and the calls, the stream is only appended
    to: the messages already sent stay, and a run, panicking or not, adds
    at most one message per call. *)
Theorem stream_append_only S kf calls st :
  exists l,
    stream (state_of (run_calls S kf calls st)) = stream st ++ l
    /\ (List.length l <= List.length calls)%nat.
Proof.
  revert st. induction calls as [|[curr targ] rest IH]; intros st; simpl.
  - exists []. rewrite app_nil_r. split; [reflexivity | apply le_n].
  - assert (Hstep : exists l1,
              stream (state_of (plainProgressCb S kf curr targ st)) = stream st ++ l1
              /\ (List.length l1 <= 1)%nat).
    { unfold plainProgressCb.
      destruct (rate_limited S curr (clamp curr targ)).
      - exists []. rewrite app_nil_r. split; [reflexivity | simpl; lia].
      - exists [{| Current := curr; Target := clamp curr targ |}].
        split; [| simpl; lia].
        destruct (negb kf && (clamp curr targ >? 0) && (curr =? clamp curr targ));
          [unfold close_done; cbn [stream_Send done stream]; destruct (done st) |];
          reflexivity. }
    destruct Hstep as (l1 & Hl1 & Hn1).
    destruct (plainProgressCb S kf curr targ st) as [st'|msg st']; cbn [state_of] in *.
    + destruct (IH st') as (l & Hl & Hn).
      exists (l1 ++ l). rewrite Hl, Hl1, <- app_assoc.
      split; [reflexivity | rewrite length_app; lia].
    + exists l1. split; [assumption | lia].
Qed.

Lemma follow_target_min currentRound upTo :
  upTo <> 0 -> follow_target currentRound upTo = Z.min upTo currentRound.
Proof.
  intros H0. unfold follow_target.
  destruct (Z.eqb_spec upTo 0); [contradiction |]. cbn [negb andb].
  destruct (Z.ltb_spec upTo currentRound); lia.
Qed.

(** X5. The callback of a follow session ([sendProgressCallback]), on
    an open [done]: the notification that the store was closed changes
    nothing; a beacon never makes it panic, and closes [done] exactly
    when an upper bound was requested ([upTo <> 0]) and the beacon's
    round is positive and has reached the smaller of [upTo] and the
    chain's current round.  Without an upper bound the session never
    completes by itself. *)
Theorem follow_callback_completion S upTo currentRound round st :
  0 <= S -> done st = Open ->
  let cb := fst (sendProgressCallback S upTo currentRound) in
  cb round true st = Normal st
  /\ panicked (cb round false st) = false
  /\ (done (state_of (cb round false st)) = Closed
      <-> upTo <> 0 /\ 0 < round /\ Z.min upTo currentRound <= round).
Proof.
  intros HS Hopen cb. unfold cb, sendProgressCallback, sendPlainProgressCallback.
  cbn [fst]. split; [reflexivity |].
  destruct (Z.eqb_spec upTo 0) as [H0|H0].
  - rewrite plainProgressCb_continuous. cbn [panicked state_of].
    split; [reflexivity |].
    assert (Hd : forall (b : bool) (x y : CbState),
                   done x = Open -> done y = Open ->
                   done (if b then x else y) = Open) by (intros []; auto).
    rewrite Hd by (try assumption; unfold stream_Send; cbn [done]; assumption).
    split; [discriminate | intros [H _]; contradiction].
  - rewrite (follow_target_min currentRound upTo H0).
    destruct (one_shot_step S round (Z.min upTo currentRound) st HS Hopen)
      as [Hp Hiff].
    split; [exact Hp |].
    rewrite Hiff. tauto.
Qed.

Lemma follow_callback_completion_witness :
  fst (sendProgressCallback 300 10 100) 10 true (fresh_cb []) = Normal (fresh_cb [])
  /\ panicked (fst (sendProgressCallback 300 10 100) 10 false (fresh_cb [])) = false
  /\ (done (state_of (fst (sendProgressCallback 300 10 100) 10 false (fresh_cb [])))
      = Closed
      <-> 10 <> 0 /\ 0 < 10 /\ Z.min 10 100 <= 10).
Proof.
  apply (follow_callback_completion 300 10 100 10 (fresh_cb []));
    [lia | reflexivity].
Defined.

End ProgressRunFacts.

(* ================================================================== *)
(** * More on fetching the chain info *)
(* ================================================================== *)
Module ChainInfoRunFacts.
Import Go Control ControlRuns ChainInfoFacts.

Section Fetch.
Variable Packet : Type.
Variable env : Env Packet.

(** Unreachable peers leave the candidate alone; the error becomes
    the error of the last of them. *)
Lemma loop_unreachable l : forall info err,
  Forall (unreachable env) l ->
  exists err', chainInfo_loop env l info err = (info, err')
               /\ (l = [] -> err' = err).
Proof.
  induction l as [|q l IH]; intros info err Hall.
  - exists err. split; [reflexivity | auto].
  - inversion Hall as [|q' l' (ci & e & Hq) Hl]; subst.
    destruct (IH info (Some e) Hl) as (err' & Hloop & _).
    exists err'. simpl. rewrite Hq. split; [exact Hloop | discriminate].
Qed.

Lemma loop_found l : forall info err i e,
  chainInfo_loop env l info err = (Some i, e) ->
  info = Some i
  \/ exists p ci e', In p l /\ ChainInfo env p = (ci, None)
                     /\ InfoFromProto env ci = (Some i, e').
Proof.
  induction l as [|q l IH]; intros info err i e H; simpl in H.
  - inversion H; subst. left; reflexivity.
  - destruct (ChainInfo env q) as [ci [eq|]] eqn:Hq.
    + destruct (IH _ _ _ _ H) as [Hi | (p & ci' & e' & Hp & Hc & Hparse)].
      * left; exact Hi.
      * right. exists p, ci', e'. repeat split; auto. right; exact Hp.
    + destruct (InfoFromProto env ci) as [i' e'] eqn:Hparse.
      destruct (IH _ _ _ _ H) as [Hi | (p & ci' & e'' & Hp & Hc & Hparse')].
      * right. exists q, ci, e'. subst i'. repeat split; auto. left; reflexivity.
      * right. exists p, ci', e''. repeat split; auto. right; exact Hp.
Qed.

(** X6. The answer of [chainInfoFromPeers] is decided by the last peer
    that can be reached: if [public.InfoFromProto] returns an info for
    its packet, that info is the result, whatever the peers before it
    answered; if it returns none, the call fails, with the parse error
    when that peer is the last of the list. *)
Theorem chainInfo_decided_by_last_reachable l1 p l2 ci :
  ChainInfo env p = (ci, None) ->
  Forall (unreachable env) l2 ->
  match fst (InfoFromProto env ci) with
  | Some i => chainInfoFromPeers env (l1 ++ p :: l2) = inl i
  | None =>
      exists err,
        chainInfoFromPeers env (l1 ++ p :: l2) = inr (Errorf_w no_chain_info err)
        /\ (l2 = [] -> err = snd (InfoFromProto env ci))
  end.
Proof.
  intros Hp Hl2. unfold chainInfoFromPeers.
  rewrite (chainInfo_loop_app Packet env l1 (p :: l2)).
  destruct (chainInfo_loop env l1 None None) as [i0 e0].
  change (p :: l2) with ([p] ++ l2).
  rewrite (chainInfo_loop_app Packet env [p] l2).
  rewrite (reachable_peer_step Packet env p ci i0 e0 Hp).
  destruct (InfoFromProto env ci) as [i' e'] eqn:Hparse. cbn [fst snd].
  destruct (loop_unreachable l2 i' e' Hl2) as (err' & Hloop & Hnil).
  rewrite Hloop.
  destruct i' as [i|].
  - reflexivity.
  - exists err'. split; [reflexivity | exact Hnil].
Qed.

(** X7. [chainInfoFromPeers] never invents a chain info: what it
    returns is what [public.InfoFromProto] returned for the packet of a
    peer of the list that answered. *)
Theorem chainInfo_comes_from_a_peer peers i :
  chainInfoFromPeers env peers = inl i ->
  exists p ci e, In p peers /\ ChainInfo env p = (ci, None)
                 /\ InfoFromProto env ci = (Some i, e).
Proof.
  unfold chainInfoFromPeers.
  destruct (chainInfo_loop env peers None None) as [[i'|] e] eqn:Hloop;
    [| discriminate].
  intros H; inversion H; subst i'.
  destruct (loop_found peers None None i e Hloop) as [Hi | Hex];
    [discriminate | exact Hex].
Qed.

(** X8. With no peer, or when no peer can be reached, the call fails;
    the error wraps nothing for the empty list and otherwise the error
    of the last peer. *)
Theorem chainInfo_fails_without_reachable_peer peers p ci e :
  Forall (unreachable env) peers ->
  ChainInfo env p = (ci, Some e) ->
  chainInfoFromPeers env [] = inr (fmt_Errorf no_chain_info)
  /\ chainInfoFromPeers env (peers ++ [p]) = inr (fmt_Errorf_w no_chain_info e).
Proof.
  intros Hall Hp. split; [reflexivity |].
  unfold chainInfoFromPeers.
  rewrite (chainInfo_loop_app Packet env peers [p]).
  destruct (loop_unreachable peers None None Hall) as (err' & Hloop & _).
  rewrite Hloop.
  rewrite (unreachable_peer_step Packet env p ci e None err' Hp).
  reflexivity.
Qed.

End Fetch.

Lemma chainInfo_decided_by_last_reachable_witness :
  chainInfoFromPeers MoreScenarios.env_mixed
    (["10.0.0.3:4444"%string] ++ "10.0.0.2:4444"%string :: ["10.0.0.9:4444"%string])
  = inl Scenarios.info_a.
Proof.
  refine (chainInfo_decided_by_last_reachable string MoreScenarios.env_mixed
            ["10.0.0.3:4444"%string] "10.0.0.2:4444"%string
            ["10.0.0.9:4444"%string] (Some "10.0.0.2:4444"%string) eq_refl _).
  constructor; [| constructor].
  exists None, (external "connection refused"). reflexivity.
Defined.

Lemma chainInfo_comes_from_a_peer_witness :
  exists p ci e,
    In p ["10.0.0.3:4444"%string; "10.0.0.2:4444"%string]
    /\ ChainInfo MoreScenarios.env_mixed p = (ci, None)
    /\ InfoFromProto MoreScenarios.env_mixed ci = (Some Scenarios.info_a, e).
Proof.
  apply (chainInfo_comes_from_a_peer string MoreScenarios.env_mixed
           ["10.0.0.3:4444"%string; "10.0.0.2:4444"%string] Scenarios.info_a).
  reflexivity.
Defined.

Lemma chainInfo_fails_without_reachable_peer_witness :
  chainInfoFromPeers MoreScenarios.env_mixed [] = inr (fmt_Errorf no_chain_info)
  /\ chainInfoFromPeers MoreScenarios.env_mixed ([] ++ ["10.0.0.9:4444"%string])
     = inr (fmt_Errorf_w no_chain_info (external "connection refused")).
Proof.
  apply (chainInfo_fails_without_reachable_peer string MoreScenarios.env_mixed
           [] "10.0.0.9:4444"%string None (external "connection refused"));
    [constructor | reflexivity].
Defined.

End ChainInfoRunFacts.

(* ================================================================== *)
(** * More on the two controllers *)
(* ================================================================== *)
Module ControlRunFacts.
Import Go Progress Control ControlRuns GuardFacts Scenarios MoreScenarios.

(** With the nil channel the [select] only reacts to [done] and to the
    cancellation of the context. *)
Lemma follow_select_nil period sched : forall c w,
  follow_select chan_nil period c sched w
  = match check_wait sched with
    | Returned e => (Returned e, emit (EvCancel c) w)
    | Blocked => (Blocked, w)
    end.
Proof.
  induction sched as [|o rest IH]; intros c w; simpl.
  - reflexivity.
  - destruct o; try reflexivity. apply IH.
Qed.

Lemma follow_loop_nil period sched w :
  follow_loop errChan period sched w
  = match check_wait sched with
    | Returned e =>
        (Returned e,
         {| bp := bp w; next_scope := S (next_scope w);
            log := log w ++ [EvSync (next_scope w); EvCancel (next_scope w)] |})
    | Blocked =>
        (Blocked,
         {| bp := bp w; next_scope := S (next_scope w);
            log := log w ++ [EvSync (next_scope w)] |})
    end.
Proof.
  unfold follow_loop, errChan. norm_log. rewrite follow_select_nil.
  destruct (check_wait sched); norm_log; reflexivity.
Qed.

(** Every invocation of [StartFollowChain] on a free guard goes one of
    the ways of [FollowPath]. *)
Ltac path_done :=
  unfold release, acquire_events, release_after, release_events,
         with_guard, guard_after;
  norm_log; try rewrite app_nil_r; reflexivity.

Lemma follow_paths (Packet : Type) (env : Env Packet) (req : StartSyncRequest)
    (w : World) :
  syncerCancel (bp w) = None ->
  exists out l ns,
    FollowPath Packet env req (bp w) (next_scope w) out l
    /\ StartFollowChain env req w
       = (out,
          {| bp := with_guard (guard_after out (next_scope w)) (bp w);
             next_scope := ns;
             log := log w ++ acquire_events (next_scope w) ++ l
                    ++ release_after out (next_scope w) |}).
Proof.
  intros Hs. unfold StartFollowChain. norm_log. rewrite Hs.
  unfold defer at 1, follow_body. norm_log.
  destruct (chainInfoFromPeers env (peers_of (Addr (bp w)) (Nodes req)))
    as [info|e0] eqn:Hci.
  2:{ eexists _, _, _. split; [eapply path_no_info; eassumption |].
      path_done. }
  destruct (bytes_Equal (Hash info) (ChainHash req)) eqn:Hhash; cbn [negb].
  2:{ eexists _, _, _. split; [eapply path_hash; eassumption |].
      path_done. }
  destruct (CompareBeaconIDs env (beaconID (bp w)) (ID info)) eqn:Hid; cbn [negb].
  2:{ eexists _, _, _. split; [eapply path_beacon_id; eassumption |].
      path_done. }
  assert (Hv : verified Packet env req (bp w) info) by (repeat split; assumption).
  destruct (createDBStore env) as [edb|] eqn:Hdb.
  { eexists _, _, _. split; [eapply path_create_store; eassumption |].
    path_done. }
  destruct (store_Put env) as [eput|] eqn:Hput.
  { eexists _, _, _. split; [eapply path_put; eassumption |].
    path_done. }
  destruct (SchemeFromName env (SchemeName info)) as [esch|] eqn:Hsch.
  { eexists _, _, _. split; [eapply path_scheme; eassumption |].
    path_done. }
  destruct (NewSchemeStore env) as [ess|] eqn:Hss.
  { eexists _, _, _. split; [eapply path_scheme_store; eassumption |].
    path_done. }
  assert (Hr : stores_ready Packet env req (bp w) info)
    by (repeat split; assumption || apply Hv).
  unfold defer. norm_log.
  destruct (NewSyncManager env) as [esm|] eqn:Hsm.
  { eexists _, _, _. split; [eapply path_sync_manager; eassumption |].
    path_done. }
  rewrite follow_loop_nil.
  destruct (check_wait (schedule env)) as [err|] eqn:Hwait.
  - eexists _, _, _. split; [eapply path_returned; eassumption |].
    path_done.
  - eexists _, _, _. split; [eapply path_blocked; eassumption |].
    path_done.
Qed.

Ltac open_path :=
  repeat match goal with
  | H : stores_ready _ _ _ _ _ |- _ => destruct H as (? & ? & ? & ? & ?)
  | H : verified _ _ _ _ _ |- _ => destruct H as (? & ? & ?)
  end.

Lemma peers_of_all_self self nodes :
  Forall (fun a => a = self) nodes -> peers_of self nodes = [].
Proof.
  induction 1 as [|a l Ha Hl IH]; [reflexivity |].
  unfold peers_of in *. simpl. subst a. rewrite String.eqb_refl. exact IH.
Qed.

Lemma with_guard_same b : with_guard (syncerCancel b) b = b.
Proof. destruct b; reflexivity. Qed.

(** X9. A follow request that names no node but the node itself (or
    no node at all) fails with the chain-info error wrapping nothing:
    no peer is asked, nothing is created, and the guard taken for the
    attempt is released. *)
Theorem follow_needs_another_peer (Packet : Type) (env : Env Packet)
    (req : StartSyncRequest) (w : World) :
  syncerCancel (bp w) = None ->
  Forall (fun a => a = Addr (bp w)) (Nodes req) ->
  let r := StartFollowChain env req w in
  fst r = Returned (Some (fmt_Errorf no_chain_info))
  /\ new_events w (snd r)
     = acquire_events (next_scope w) ++ release_events (next_scope w)
  /\ bp (snd r) = bp w.
Proof.
  intros Hs Hself r.
  destruct (follow_paths Packet env req w Hs) as (out & l & ns & Hpath & Hr).
  unfold r. rewrite Hr. cbn [fst snd bp].
  inversion Hpath; subst; open_path;
    try match goal with
        | H : chainInfoFromPeers env (peers_of _ _) = _ |- _ =>
            rewrite (peers_of_all_self _ _ Hself) in H
        end;
    try match goal with
        | H : chainInfoFromPeers env [] = _ |- _ => cbv in H; try discriminate
        end.
  match goal with H : inr _ = inr _ |- _ => inversion H; subst end.
  split; [reflexivity |].
  split.
  - apply new_events_app. cbn [log]. reflexivity.
  - cbn [guard_after]. rewrite <- Hs. apply with_guard_same.
Qed.

Lemma follow_needs_another_peer_witness :
  fst (StartFollowChain env_ok req_self_only idle)
  = Returned (Some (fmt_Errorf no_chain_info))
  /\ new_events idle (snd (StartFollowChain env_ok req_self_only idle))
     = acquire_events 0%nat ++ release_events 0%nat
  /\ bp (snd (StartFollowChain env_ok req_self_only idle)) = bp idle.
Proof.
  apply (follow_needs_another_peer string env_ok req_self_only idle);
    [reflexivity | repeat constructor].
Defined.

Lemma new_events_record w b ns l :
  new_events w {| bp := b; next_scope := ns; log := log w ++ l |} = l.
Proof. apply new_events_app. reflexivity. Qed.

(** X10. A store is created only for a chain that was verified: when
    the log of a follow invocation shows the creation of the store,
    [chainInfoFromPeers] had returned an info whose hash is the hash of
    the request and whose beacon id [CompareBeaconIDs] accepts. *)
Theorem follow_store_only_for_verified_chain (Packet : Type) (env : Env Packet)
    (req : StartSyncRequest) (w : World) :
  syncerCancel (bp w) = None ->
  In EvCreateStore (new_events w (snd (StartFollowChain env req w))) ->
  exists info,
    chainInfoFromPeers env (peers_of (Addr (bp w)) (Nodes req)) = inl info
    /\ Hash info = ChainHash req
    /\ CompareBeaconIDs env (beaconID (bp w)) (ID info) = true.
Proof.
  intros Hs.
  destruct (follow_paths Packet env req w Hs) as (out & l & ns & Hpath & Hr).
  rewrite Hr. cbn [snd].
  rewrite new_events_record.
  intros Hin.
  assert (Hl : In EvCreateStore l).
  { apply in_app_or in Hin as [Hin | Hin].
    - simpl in Hin. intuition discriminate.
    - apply in_app_or in Hin as [Hin | Hin]; [exact Hin |].
      destruct out; simpl in Hin; intuition discriminate. }
  inversion Hpath; subst; open_path;
    try (simpl in Hl; contradiction);
    (eexists; split; [eassumption |];
     split; [apply GoFacts.bytes_Equal_spec; assumption | assumption]).
Qed.

Lemma follow_store_only_for_verified_chain_witness :
  exists info,
    chainInfoFromPeers env_done (peers_of (Addr (bp idle)) (Nodes req_follow))
    = inl info
    /\ Hash info = ChainHash req_follow
    /\ CompareBeaconIDs env_done (beaconID (bp idle)) (ID info) = true.
Proof.
  apply (follow_store_only_for_verified_chain string env_done req_follow idle).
  - reflexivity.
  - cbv. tauto.
Defined.

(** X11. The guard is held exactly while the invocation runs: a follow
    invocation on a free guard leaves the node as it found it, with the
    guard free again, whenever it returns, and holding the scope it
    stored while it is blocked in its [select]. *)
Theorem follow_guard_lifecycle (Packet : Type) (env : Env Packet)
    (req : StartSyncRequest) (w : World) :
  syncerCancel (bp w) = None ->
  let r := StartFollowChain env req w in
  match fst r with
  | Returned _ => bp (snd r) = bp w
  | Blocked => bp (snd r) = with_guard (Some (next_scope w)) (bp w)
  end.
Proof.
  intros Hs r.
  destruct (follow_paths Packet env req w Hs) as (out & l & ns & Hpath & Hr).
  unfold r. rewrite Hr. cbn [fst snd bp].
  destruct out; cbn [guard_after]; [| reflexivity].
  rewrite <- Hs. apply with_guard_same.
Qed.

Lemma follow_guard_lifecycle_witness :
  match fst (StartFollowChain (env_failing 2) req_follow idle) with
  | Returned _ => bp (snd (StartFollowChain (env_failing 2) req_follow idle)) = bp idle
  | Blocked => bp (snd (StartFollowChain (env_failing 2) req_follow idle))
               = with_guard (Some (next_scope idle)) (bp idle)
  end.
Proof.
  apply (follow_guard_lifecycle string (env_failing 2) req_follow idle).
  reflexivity.
Defined.



(** X13. A follow session whose bootstrap succeeded and that sees
    [done] closed, or its context cancelled, before anything else
    returns nil, respectively the error of the context, after undoing
    its set-up innermost first: the sub-scope of the running [Sync] is
    cancelled, the syncer stopped, the callback removed, the callback
    store closed, and last the guard released. *)
Theorem follow_session_teardown (Packet : Type) (env : Env Packet)
    (req : StartSyncRequest) (w : World) (info : Info)
    (o : Occ) (rest : list Occ) :
  syncerCancel (bp w) = None ->
  stores_ready Packet env req (bp w) info ->
  NewSyncManager env = None ->
  schedule env = o :: rest ->
  (forall e, o <> OccSyncReturns e) ->
  let r := StartFollowChain env req w in
  let n := next_scope w in
  fst r = match o with OccDone => Returned None | _ => Returned (Some ctx_Err) end
  /\ new_events w (snd r)
     = acquire_events n
       ++ [EvCreateStore; EvStorePut; EvNewCallbackStore; EvAddCallback;
           EvSyncerRun; EvSync (S n); EvCancel (S n);
           EvSyncerStop; EvRemoveCallback; EvCbStoreClose]
       ++ release_events n.
Proof.
  intros Hs Hready Hsm Hsched Ho r n.
  destruct (follow_paths Packet env req w Hs) as (out & l & ns & Hpath & Hr).
  unfold r. rewrite Hr. cbn [fst snd].
  rewrite new_events_record.
  assert (Hwait : check_wait (schedule env)
                  = match o with OccDone => Returned None
                               | _ => Returned (Some ctx_Err) end).
  { rewrite Hsched. destruct o; try reflexivity. exfalso. eapply Ho; reflexivity. }
  destruct Hready as ((Hci & Hhash & Hid) & Hdb & Hput & Hsch & Hss).
  inversion Hpath; subst; open_path;
    repeat match goal with
    | H1 : chainInfoFromPeers env ?p = _, H2 : chainInfoFromPeers env ?p = _ |- _ =>
        rewrite H1 in H2; inversion H2; subst; clear H2
    end;
    try congruence.
  - match goal with H : check_wait _ = Returned _ |- _ => rewrite Hwait in H end.
    destruct o; try (exfalso; eapply Ho; reflexivity);
      match goal with H : Returned _ = Returned _ |- _ => inversion H; subst end;
      split; reflexivity.
  - match goal with H : check_wait _ = Blocked |- _ => rewrite Hwait in H end.
    destruct o; discriminate.
Qed.

Lemma follow_session_teardown_witness :
  fst (StartFollowChain env_done req_follow idle) = Returned None
  /\ new_events idle (snd (StartFollowChain env_done req_follow idle))
     = acquire_events 0%nat
       ++ [EvCreateStore; EvStorePut; EvNewCallbackStore; EvAddCallback;
           EvSyncerRun; EvSync 1%nat; EvCancel 1%nat;
           EvSyncerStop; EvRemoveCallback; EvCbStoreClose]
       ++ release_events 0%nat.
Proof.
  apply (follow_session_teardown string env_done req_follow idle info_a OccDone []).
  - reflexivity.
  - repeat split.
  - reflexivity.
  - reflexivity.
  - discriminate.
Defined.

Lemma not_dry_run (nodes : list string) (self : string) :
  nodes <> [self] ->
  match nodes with [n] => String.eqb n self | _ => false end = false.
Proof.
  intros H. destruct nodes as [|n [|n' rest]]; try reflexivity.
  destruct (String.eqb_spec n self); [subst; contradiction | reflexivity].
Qed.

Lemma not_empty_length {A} (l : list A) : l <> [] -> Nat.eqb (List.length l) 0 = false.
Proof. destruct l; [contradiction | reflexivity]. Qed.

(** X14. A validation pass that fails ends a check invocation at once:
    the error of [ValidateChain] is returned as it is, and after the
    validation pass the controller only releases the guard: it does not
    send the reset message of line 453, does not sleep and does not call
    [CorrectChain]; the node is left as it was.  (What [ValidateChain]
    sent through its progress callback before failing is not part of
    the log.) *)
Theorem check_validation_error_is_terminal (sched : list Occ)
    (req : StartSyncRequest) (w : World) (h : Handler)
    (faulty : list Z) (e : error) :
  beacon (bp w) = Some h ->
  syncerCancel (bp w) = None ->
  ValidateChain h (UpTo req) = (faulty, Some e) ->
  let r := StartCheckChain sched req w in
  fst r = Returned (Some e)
  /\ new_events w (snd r)
     = acquire_events (next_scope w) ++ [EvValidateChain (UpTo req)]
       ++ release_events (next_scope w)
  /\ bp (snd r) = bp w.
Proof.
  intros Hb Hs Hv r. unfold r, StartCheckChain. rewrite Hb. norm_log. rewrite Hs.
  unfold defer, check_body. rewrite Hv. norm_log.
  unfold release. norm_log.
  split; [reflexivity |]. split.
  - apply new_events_app. reflexivity.
  - rewrite <- Hs. destruct (bp w); reflexivity.
Qed.

Lemma check_validation_error_is_terminal_witness :
  fst (StartCheckChain [OccDone] req_any (node h_failing))
  = Returned (Some (external "unable to read the local chain"))
  /\ new_events (node h_failing)
       (snd (StartCheckChain [OccDone] req_any (node h_failing)))
     = acquire_events 0%nat ++ [EvValidateChain 0] ++ release_events 0%nat
  /\ bp (snd (StartCheckChain [OccDone] req_any (node h_failing)))
     = bp (node h_failing).
Proof.
  apply (check_validation_error_is_terminal [OccDone] req_any
           (node h_failing) h_failing []
           (external "unable to read the local chain")); reflexivity.
Defined.

(** X15. The correction pass.  When the validation pass found faulty
    rounds and the request is not a dry run, the invocation sends the
    reset message, sleeps one second and calls [CorrectChain] once, with
    the faulty rounds and the peers of the request other than the node
    itself.  An error of [CorrectChain] is returned as it is; otherwise
    the invocation waits: it returns nil once [done] is closed, the
    error of the context once it is cancelled.  The guard is released
    when it returns. *)
Theorem check_correction_pass (sched : list Occ)
    (req : StartSyncRequest) (w : World) (h : Handler) (faulty : list Z) :
  beacon (bp w) = Some h ->
  syncerCancel (bp w) = None ->
  ValidateChain h (UpTo req) = (faulty, None) ->
  faulty <> [] ->
  Nodes req <> [Addr (bp w)] ->
  let r := StartCheckChain sched req w in
  let peers := peers_of (Addr (bp w)) (Nodes req) in
  fst r = match CorrectChain h faulty peers with
          | Some e => Returned (Some e)
          | None => check_wait sched
          end
  /\ new_events w (snd r)
     = acquire_events (next_scope w)
       ++ [EvValidateChain (UpTo req);
           EvSend {| Current := 0; Target := Z.of_nat (List.length faulty) |};
           EvSleep 1000000000;
           EvCorrectChain faulty peers]
       ++ release_after (fst r) (next_scope w).
Proof.
  intros Hb Hs Hv Hf Hn r peers. unfold r, StartCheckChain. rewrite Hb.
  norm_log. rewrite Hs.
  unfold defer, check_body. rewrite Hv. norm_log.
  rewrite (not_dry_run _ _ Hn), (not_empty_length _ Hf). cbn [orb].
  fold peers.
  destruct (CorrectChain h faulty peers) as [e|].
  - unfold release. norm_log. split; [reflexivity |].
    apply new_events_app. reflexivity.
  - destruct (check_wait sched) as [e|].
    + unfold release. norm_log. split; [reflexivity |].
      apply new_events_app. reflexivity.
    + norm_log. split; [reflexivity |].
      apply new_events_app. reflexivity.
Qed.

Lemma check_correction_pass_witness :
  fst (StartCheckChain [OccCtxDone] req_follow (node h_faulty))
  = match CorrectChain h_faulty [3; 8] ["10.0.0.2:4444"%string] with
    | Some e => Returned (Some e)
    | None => check_wait [OccCtxDone]
    end
  /\ new_events (node h_faulty)
       (snd (StartCheckChain [OccCtxDone] req_follow (node h_faulty)))
     = acquire_events 0%nat
       ++ [EvValidateChain 100;
           EvSend {| Current := 0; Target := 2 |};
           EvSleep 1000000000;
           EvCorrectChain [3; 8] ["10.0.0.2:4444"%string]]
       ++ release_after
            (fst (StartCheckChain [OccCtxDone] req_follow (node h_faulty)))
            0%nat.
Proof.
  apply (check_correction_pass [OccCtxDone] req_follow
           (node h_faulty) h_faulty [3; 8]);
    try reflexivity; discriminate.
Defined.

(** X16. The guard around a check invocation: whatever the request,
    the validator and the corrector do, an invocation on a free guard
    that returns leaves the node as it found it, the guard free; while
    it waits for the end of the correction it holds the scope it
    stored. *)
Theorem check_guard_lifecycle (sched : list Occ)
    (req : StartSyncRequest) (w : World) :
  syncerCancel (bp w) = None ->
  let r := StartCheckChain sched req w in
  match fst r with
  | Returned _ => bp (snd r) = bp w
  | Blocked => bp (snd r) = with_guard (Some (next_scope w)) (bp w)
  end.
Proof.
  intros Hs r. unfold r, StartCheckChain.
  destruct (beacon (bp w)) as [h|] eqn:Hb; [| reflexivity].
  norm_log. rewrite Hs. unfold defer.
  match goal with |- context [check_body h sched req ?w0] =>
    destruct (CheckFacts.check_body_log h sched req w0) as (l & _ & Hbp & _);
    destruct (check_body h sched req w0) as [[e|] w1]
  end; cbn [fst snd bp] in *.
  - unfold release. norm_log. rewrite <- Hs.
    destruct (bp w) as [sc bc a i] eqn:E. cbn in *. 
    rewrite Hbp in *. reflexivity.
  - rewrite Hbp. unfold with_guard. rewrite Hb. reflexivity.
Qed.

Lemma check_guard_lifecycle_witness :
  match fst (StartCheckChain [] req_follow (node h_faulty)) with
  | Returned _ =>
      bp (snd (StartCheckChain [] req_follow (node h_faulty)))
      = bp (node h_faulty)
  | Blocked =>
      bp (snd (StartCheckChain [] req_follow (node h_faulty)))
      = with_guard (Some (next_scope (node h_faulty)))
          (bp (node h_faulty))
  end.
Proof.
  apply (check_guard_lifecycle [] req_follow (node h_faulty)).
  reflexivity.
Defined.

End ControlRunFacts.

(* ================================================================== *)
(** * More on group transitions *)
(* ================================================================== *)
Module GroupRunFacts.
Import Go Group Scenarios.

(** X17. For two groups, [validateGroupTransition] never panics and
    answers with nil or one of its five errors; it accepts exactly when
    genesis time and period are equal, [CompareBeaconIDs] accepts the
    two identifiers, the genesis seeds are equal and the transition
    time of the new group is not before the current time.  The seed
    accessor is assumed to leave its receiver unchanged. *)
Theorem group_transition_accepts_iff
    (CompareBeaconIDs : string -> string -> bool)
    (GetGenesisSeed : Group -> list Z * Group) (now : Z) (o n : Group) :
  (forall g, snd (GetGenesisSeed g) = g) ->
  let r := fst (validateGroupTransition CompareBeaconIDs GetGenesisSeed now
                  (Some o) (Some n)) in
  (r = Normal None \/ exists e, r = Normal (Some e) /\ In e error_kinds)
  /\ (r = Normal None <->
      GenesisTime o = GenesisTime n /\ Period o = Period n
      /\ CompareBeaconIDs (ID o) (ID n) = true
      /\ fst (GetGenesisSeed o) = fst (GetGenesisSeed n)
      /\ now <= TransitionTime n).
Proof.
  intros Hpure r. unfold r, validateGroupTransition.
  destruct (Z.eqb_spec (GenesisTime o) (GenesisTime n)) as [Hg|Hg]; cbn [negb].
  2:{ split; [right; eexists; split; [reflexivity | simpl; tauto] |].
      split; [discriminate | tauto]. }
  destruct (Z.eqb_spec (Period o) (Period n)) as [Hp|Hp]; cbn [negb].
  2:{ split; [right; eexists; split; [reflexivity | simpl; tauto] |].
      split; [discriminate | tauto]. }
  destruct (CompareBeaconIDs (ID o) (ID n)) eqn:Hid; cbn [negb].
  2:{ split; [right; eexists; split; [reflexivity | simpl; tauto] |].
      split; [discriminate | intros (_ & _ & H & _); discriminate]. }
  pose proof (Hpure o) as Ho. pose proof (Hpure n) as Hn.
  destruct (GetGenesisSeed o) as [seed_o o'].
  destruct (GetGenesisSeed n) as [seed_n n'].
  cbn [fst snd] in *. subst o' n'.
  destruct (bytes_Equal seed_o seed_n) eqn:Hseed; cbn [negb].
  2:{ split; [right; eexists; split; [reflexivity | simpl; tauto] |].
      split; [discriminate |].
      intros (_ & _ & _ & H & _). apply GoFacts.bytes_Equal_spec in H. congruence. }
  apply GoFacts.bytes_Equal_spec in Hseed.
  destruct (Z.ltb_spec (TransitionTime n) now) as [Ht|Ht]; cbn [fst].
  - split; [right; eexists; split; [reflexivity | simpl; tauto] |].
    split; [discriminate | intros (_ & _ & _ & _ & H); lia].
  - split; [left; reflexivity |].
    split; [intros _; repeat split; assumption | reflexivity].
Qed.

Lemma group_transition_accepts_iff_witness :
  let r := fst (validateGroupTransition String.eqb read_seed 1700000000
                  (Some g_old) (Some (g_next 1700000900))) in
  (r = Normal None \/ exists e, r = Normal (Some e) /\ In e error_kinds)
  /\ (r = Normal None <->
      GenesisTime g_old = GenesisTime (g_next 1700000900)
      /\ Period g_old = Period (g_next 1700000900)
      /\ String.eqb (ID g_old) (ID (g_next 1700000900)) = true
      /\ fst (read_seed g_old) = fst (read_seed (g_next 1700000900))
      /\ 1700000000 <= TransitionTime (g_next 1700000900)).
Proof.
  apply (group_transition_accepts_iff String.eqb read_seed 1700000000
           g_old (g_next 1700000900)).
  intros g; reflexivity.
Defined.

End GroupRunFacts.

(* ================================================================== *)
(** * Status of the node and of its peers *)
(* ================================================================== *)
Module StatusFacts.
Import Go StatusModel.

Section Maps.
Variable V : Type.

Lemma map_get_filter_other (k k' : string) (m : gomap V) :
  k' <> k ->
  map_get k' (filter (fun kv => negb (String.eqb k (fst kv))) m) = map_get k' m.
Proof.
  intros Hne. induction m as [|[k0 v0] m IH]; simpl; [reflexivity |].
  destruct (String.eqb_spec k k0) as [->|Hk]; simpl.
  - destruct (String.eqb_spec k' k0); [contradiction | exact IH].
  - destruct (String.eqb_spec k' k0); [reflexivity | exact IH].
Qed.

Lemma map_get_set (k k' : string) (v : V) (m : gomap V) :
  map_get k' (map_set k v m) = if String.eqb k' k then Some v else map_get k' m.
Proof.
  unfold map_set. simpl.
  destruct (String.eqb_spec k' k) as [->|Hne]; [reflexivity |].
  apply map_get_filter_other; assumption.
Qed.

Lemma has_key_set (k k' : string) (v : V) (m : gomap V) :
  has_key k' (map_set k v m) <-> k' = k \/ has_key k' m.
Proof.
  unfold has_key. rewrite map_get_set.
  destruct (String.eqb_spec k' k) as [->|Hne].
  - split; [intros _; left; reflexivity | intros _; discriminate].
  - split; [intros H; right; exact H | intros [H | H]; [contradiction | exact H]].
Qed.

Lemma has_key_nil (k : string) : ~ has_key k (@nil (string * V)).
Proof. unfold has_key. simpl. intros H; apply H; reflexivity. Qed.

Lemma no_key_no_entry (m : gomap V) : (forall k, ~ has_key k m) -> m = [].
Proof.
  destruct m as [|[k v] m]; [reflexivity |].
  intros H. exfalso. apply (H k). unfold has_key. simpl.
  rewrite String.eqb_refl. discriminate.
Qed.

End Maps.
Arguments map_get_set {V} k k' v m.
Arguments has_key_set {V} k k' v m.
Arguments has_key_nil {V} k.
Arguments no_key_no_entry {V} m.

Lemma contactable_spec self a :
  contactable self a = true <-> a <> ""%string /\ a <> self.
Proof.
  unfold contactable. rewrite andb_true_iff, !negb_true_iff.
  destruct (String.eqb_spec a ""), (String.eqb_spec a self);
    split; intros [H1 H2]; try discriminate; try contradiction; split; auto.
Qed.

Section Handlers.
Variable BeaconNotInited BeaconInited : Z.
Variable CurrentRound : Z -> Z -> Z -> Z.
Variable now : Z.
Variable Check : nat -> string -> option error.
Variable GatewayStatus : nat -> string -> option StatusResponse * option error.

Lemma check_loop_spec self nodeList : forall net resp,
  pinged (fst (check_loop Check self nodeList net resp))
  = pinged net ++ contacts self nodeList
  /\ asked (fst (check_loop Check self nodeList net resp)) = asked net
  /\ (forall a, has_key a (snd (check_loop Check self nodeList net resp))
                 <-> has_key a resp \/ In a (contacts self nodeList)).
Proof.
  unfold contacts.
  induction nodeList as [|addr rest IH]; intros net resp.
  - simpl. rewrite app_nil_r. repeat split; tauto.
  - cbn [check_loop map filter].
    destruct (String.eqb (GetAddress addr) "") eqn:E1.
    { replace (contactable self (GetAddress addr)) with false
        by (unfold contactable; rewrite E1; reflexivity).
      apply IH. }
    destruct (String.eqb (GetAddress addr) self) eqn:E2.
    { replace (contactable self (GetAddress addr)) with false
        by (unfold contactable; rewrite E1, E2; reflexivity).
      apply IH. }
    replace (contactable self (GetAddress addr)) with true
      by (unfold contactable; rewrite E1, E2; reflexivity).
    destruct (Check (List.length (pinged net)) (GetAddress addr)) as [e|].
    + destruct (IH {| pinged := pinged net ++ [GetAddress addr]; asked := asked net |}
                  (map_set (GetAddress addr) false resp)) as (Hp & Ha & Hk).
      split; [rewrite Hp; cbn [pinged]; rewrite <- app_assoc; reflexivity |].
      split; [exact Ha |].
      intros a. rewrite Hk, has_key_set. simpl. intuition congruence.
    + destruct (IH {| pinged := pinged net ++ [GetAddress addr]; asked := asked net |}
                  (map_set (GetAddress addr) true resp)) as (Hp & Ha & Hk).
      split; [rewrite Hp; cbn [pinged]; rewrite <- app_assoc; reflexivity |].
      split; [exact Ha |].
      intros a. rewrite Hk, has_key_set. simpl. intuition congruence.
Qed.

Lemma In_contacts self nodeList a :
  In a (contacts self nodeList) <->
  In (Some a) nodeList /\ a <> ""%string /\ a <> self.
Proof.
  unfold contacts. rewrite filter_In, contactable_spec, in_map_iff.
  split.
  - intros ((x & Hx & Hin) & Hne & Hself). repeat split; auto.
    destruct x as [s|]; simpl in Hx; subst; [exact Hin | contradiction].
  - intros (Hin & Hne & Hself). repeat split; auto.
    exists (Some a). split; [reflexivity | exact Hin].
Qed.

(** X18. The connectivity test of [Status].  When [Status] replies,
    the addresses it pinged are, in order, the addresses of the list of
    nodes to test that are neither empty nor the node's own address: it
    never pings itself.  The [Connections] map of the reply has an entry
    exactly for the addresses pinged, and is nil when there is none;
    [privGateway.Status] is never called. *)
Theorem status_connectivity (bp : BeaconProcess)
    (CheckConn : list (option string)) (net net' : Net) (resp : StatusResponse) :
  Status BeaconNotInited BeaconInited CurrentRound now Check bp CheckConn net
  = Reply (resp, net') ->
  exists nodeList,
    connectivity_list bp CheckConn = Reply nodeList
    /\ pinged net' = pinged net ++ contacts (Addr bp) nodeList
    /\ asked net' = asked net
    /\ (forall a, In a (contacts (Addr bp) nodeList) <->
                  In (Some a) nodeList /\ a <> ""%string /\ a <> Addr bp)
    /\ (forall a, (exists m, Connections resp = Some m /\ has_key a m)
                  <-> In a (contacts (Addr bp) nodeList))
    /\ (Connections resp = None <-> contacts (Addr bp) nodeList = []).
Proof.
  unfold Status.
  destruct (local_status BeaconNotInited BeaconInited CurrentRound now bp)
    as [[bs cs]|msg]; [| discriminate].
  destruct (connectivity_list bp CheckConn) as [nodeList|msg]; [| discriminate].
  destruct (check_loop_spec (Addr bp) nodeList net []) as (Hp & Ha & Hk).
  destruct (check_loop Check (Addr bp) nodeList net []) as [net1 m] eqn:Hloop.
  cbn [fst snd] in *.
  intros H; inversion H; subst resp net'; clear H.
  exists nodeList. split; [reflexivity |]. split; [exact Hp |]. split; [exact Ha |].
  split; [intros a; apply In_contacts |].
  cbn [Connections].
  assert (Hkeys : forall a, has_key a m <-> In a (contacts (Addr bp) nodeList)).
  { intros a. rewrite Hk. split; [intros [H | H] | intros H; right; exact H].
    - exfalso. exact (has_key_nil a H).
    - exact H. }
  destruct m as [|kv m'] eqn:Em; cbn [List.length Nat.ltb Nat.leb].
  - split.
    + intros a. split.
      * intros (m0 & Hm0 & _). discriminate.
      * intros Hin. apply Hkeys in Hin. exfalso. exact (has_key_nil a Hin).
    + split; [intros _ | reflexivity].
      destruct (contacts (Addr bp) nodeList) as [|a l] eqn:Ec; [reflexivity |].
      exfalso. apply (has_key_nil (V:=bool) a). apply Hkeys. left; reflexivity.
  - split.
    + intros a. split.
      * intros (m0 & Hm0 & Hkey). inversion Hm0; subst m0. apply Hkeys; exact Hkey.
      * intros Hin. eexists. split; [reflexivity | apply Hkeys; exact Hin].
    + split; [discriminate |].
      intros Hnil. exfalso. destruct kv as [k v].
      assert (Hkk : has_key k ((k, v) :: m')).
      { unfold has_key. simpl. rewrite String.eqb_refl. discriminate. }
      apply Hkeys in Hkk. rewrite Hnil in Hkk. exact Hkk.
Qed.

Lemma contacts_app self l1 l2 :
  contacts self (l1 ++ l2) = contacts self l1 ++ contacts self l2.
Proof. unfold contacts. rewrite map_app, filter_app. reflexivity. Qed.

Lemma contacts_group self (l : list string) :
  contacts self (map Some l) = filter (contactable self) l.
Proof.
  unfold contacts. rewrite map_map. simpl. rewrite map_id. reflexivity.
Qed.

Lemma contacts_self self : contacts self [Some self] = [].
Proof.
  unfold contacts, contactable. simpl. rewrite String.eqb_refl.
  rewrite andb_false_r. reflexivity.
Qed.

(** X19. A request to test only the node itself is a request to test
    the group: on a node with a beacon and a group, [Status] asked about
    [[self]] pings, in order, every node of the group file whose address
    is neither empty nor its own. *)
Theorem status_self_only_tests_group (bp : BeaconProcess) (h : BeaconView)
    (g : GroupView) (net net' : Net) (resp : StatusResponse) :
  beacon bp = Some h -> group bp = Some g ->
  Status BeaconNotInited BeaconInited CurrentRound now Check bp
    [Some (Addr bp)] net = Reply (resp, net') ->
  pinged net' = pinged net ++ filter (contactable (Addr bp)) (Nodes g).
Proof.
  intros Hb Hg. unfold Status.
  destruct (local_status BeaconNotInited BeaconInited CurrentRound now bp)
    as [[bs cs]|msg]; [| discriminate].
  unfold connectivity_list. rewrite String.eqb_refl, Hb, Hg.
  destruct (check_loop_spec (Addr bp) ([Some (Addr bp)] ++ map Some (Nodes g)) net [])
    as (Hp & _ & _).
  destruct (check_loop Check (Addr bp) ([Some (Addr bp)] ++ map Some (Nodes g)) net [])
    as [net1 m].
  cbn [fst] in Hp. intros H; inversion H; subst.
  rewrite Hp, contacts_app, contacts_self, contacts_group. reflexivity.
Qed.

(** X20. [Status] never returns an error, and it panics in exactly
    two situations: the node has a beacon whose store holds a last
    beacon but no group (line 186 reads [bp.group.Period]), or the list
    to test is a single nil address (line 193 reads its field).
    Otherwise it replies, and reports a non-empty chain store exactly
    when the node has a beacon whose store returned a last beacon
    without error. *)
Theorem status_panics_iff (bp : BeaconProcess)
    (CheckConn : list (option string)) (net : Net) :
  let r := Status BeaconNotInited BeaconInited CurrentRound now Check bp CheckConn net in
  let has_last := exists h round, beacon bp = Some h
                                  /\ Store_Last h = (Some round, None) in
  (panics r <-> (has_last /\ group bp = None) \/ CheckConn = [None])
  /\ (forall resp net', r = Reply (resp, net') ->
       (IsEmpty (ChainStore resp) = false <-> has_last)).
Proof.
  intros r has_last. unfold r, Status, has_last, local_status.
  assert (Hconn : forall A (k : list (option string) -> reply A),
            (forall l, ~ panics (k l)) ->
            (panics match connectivity_list bp CheckConn with
                    | Reply l => k l
                    | Panics msg => Panics msg
                    end <-> CheckConn = [None])).
  { intros A k Hk. unfold connectivity_list.
    destruct CheckConn as [|[a|] [|b rest]]; simpl;
      try (split; [intros H; exfalso; revert H; apply Hk | discriminate]).
    - destruct (String.eqb a (Addr bp)); [destruct (beacon bp), (group bp) |];
        (split; [intros H; exfalso; revert H; apply Hk | discriminate]).
    - tauto. }
  destruct (beacon bp) as [h|] eqn:Hb.
  - destruct (Store_Last h) as [[round|] [e|]] eqn:Hlast.
    + split.
      * rewrite Hconn by (intros l; destruct (check_loop _ _ _ _ _); simpl; tauto).
        split; [tauto |]. intros [((h0 & r0 & Hh & Hl) & _) | H]; [| exact H].
        inversion Hh; subst. rewrite Hlast in Hl. discriminate.
      * intros resp net' H.
        destruct (connectivity_list bp CheckConn); [| discriminate].
        destruct (check_loop _ _ _ _ _). inversion H; subst. cbn.
        split; [discriminate |].
        intros (h0 & r0 & Hh & Hl). inversion Hh; subst.
        rewrite Hlast in Hl. discriminate.
    + destruct (group bp) as [g|] eqn:Hg.
      * split.
        -- rewrite Hconn by (intros l; destruct (check_loop _ _ _ _ _); simpl; tauto).
           split; [tauto |]. intros [(_ & H) | H]; [discriminate | exact H].
        -- intros resp net' H.
           destruct (connectivity_list bp CheckConn); [| discriminate].
           destruct (check_loop _ _ _ _ _). inversion H; subst. cbn.
           split; [intros _; exists h, round; split; [reflexivity | exact Hlast]
                  | reflexivity].
      * split.
        -- simpl. split; [intros _ | tauto].
           left. split; [| reflexivity]. exists h, round. split; [reflexivity | exact Hlast].
        -- intros resp net' H. discriminate.
    + split.
      * rewrite Hconn by (intros l; destruct (check_loop _ _ _ _ _); simpl; tauto).
        split; [tauto |]. intros [((h0 & r0 & Hh & Hl) & _) | H]; [| exact H].
        inversion Hh; subst. rewrite Hlast in Hl. discriminate.
      * intros resp net' H.
        destruct (connectivity_list bp CheckConn); [| discriminate].
        destruct (check_loop _ _ _ _ _). inversion H; subst. cbn.
        split; [discriminate |].
        intros (h0 & r0 & Hh & Hl). inversion Hh; subst.
        rewrite Hlast in Hl. discriminate.
    + split.
      * rewrite Hconn by (intros l; destruct (check_loop _ _ _ _ _); simpl; tauto).
        split; [tauto |]. intros [((h0 & r0 & Hh & Hl) & _) | H]; [| exact H].
        inversion Hh; subst. rewrite Hlast in Hl. discriminate.
      * intros resp net' H.
        destruct (connectivity_list bp CheckConn); [| discriminate].
        destruct (check_loop _ _ _ _ _). inversion H; subst. cbn.
        split; [discriminate |].
        intros (h0 & r0 & Hh & Hl). inversion Hh; subst.
        rewrite Hlast in Hl. discriminate.
  - split.
    + rewrite Hconn by (intros l; destruct (check_loop _ _ _ _ _); simpl; tauto).
      split; [tauto |]. intros [((h0 & r0 & Hh & _) & _) | H]; [discriminate | exact H].
    + intros resp net' H.
      destruct (connectivity_list bp CheckConn); [| discriminate].
      destruct (check_loop _ _ _ _ _). inversion H; subst. cbn.
      split; [discriminate |]. intros (h0 & r0 & Hh & _). discriminate.
Qed.

Lemma Status_net (bp : BeaconProcess) (CheckConn : list (option string))
    (net net' : Net) (resp : StatusResponse) :
  Status BeaconNotInited BeaconInited CurrentRound now Check bp CheckConn net
  = Reply (resp, net') ->
  asked net' = asked net.
Proof.
  unfold Status.
  destruct (local_status BeaconNotInited BeaconInited CurrentRound now bp)
    as [[bs cs]|msg]; [| discriminate].
  destruct (connectivity_list bp CheckConn) as [nodeList|msg]; [| discriminate].
  destruct (check_loop_spec (Addr bp) nodeList net []) as (_ & Ha & _).
  destruct (check_loop Check (Addr bp) nodeList net []) as [net1 m].
  intros H; inversion H; subst. exact Ha.
Qed.

Lemma has_key_set_mono {V} (k k' : string) (v : V) (m : gomap V) :
  has_key k' m -> has_key k' (map_set k v m).
Proof. intros H. apply has_key_set. right; exact H. Qed.

Lemma remote_loop_spec (bp : BeaconProcess) (nodes : list (option string))
    (todo : list (option string)) :
  forall net replies replies' net',
  remote_loop BeaconNotInited BeaconInited CurrentRound now Check GatewayStatus
    bp nodes todo net replies = Reply (replies', net') ->
  asked net' = asked net ++ contacts (Addr bp) todo
  /\ (forall a, has_key a replies' ->
                has_key a replies \/ (a <> ""%string /\ In (Some a) todo))
  /\ (forall a, has_key a replies' ->
                has_key a replies \/ a = Addr bp
                \/ exists k, snd (GatewayStatus k a) = None)
  /\ (has_key (Addr bp) replies
      \/ (Addr bp <> ""%string /\ In (Some (Addr bp)) todo) ->
      has_key (Addr bp) replies').
Proof.
  induction todo as [|addr rest IH]; intros net replies replies' net' H.
  - simpl in H. inversion H; subst. unfold contacts. simpl. rewrite app_nil_r.
    repeat split; tauto.
  - cbn [remote_loop] in H.
    assert (Hc : contacts (Addr bp) (addr :: rest)
                 = (if contactable (Addr bp) (GetAddress addr)
                    then [GetAddress addr] else []) ++ contacts (Addr bp) rest).
    { unfold contacts. cbn [map filter].
      destruct (contactable (Addr bp) (GetAddress addr)); reflexivity. }
    rewrite Hc. clear Hc.
    destruct (String.eqb_spec (GetAddress addr) "") as [E1|E1].
    { replace (contactable (Addr bp) (GetAddress addr)) with false
        by (unfold contactable; rewrite E1; reflexivity).
      destruct (IH _ _ _ _ H) as (Ha & Hk1 & Hk2 & Hs).
      split; [exact Ha |]. split; [| split; [exact Hk2 |]].
      - intros a Hkey. destruct (Hk1 a Hkey) as [Hr | [Hne Hin]];
          [left; exact Hr | right; split; [exact Hne | right; exact Hin]].
      - intros [Hk | [Hne [Heq | Hin]]].
        + apply Hs. left; exact Hk.
        + exfalso. subst addr. simpl in E1. contradiction.
        + apply Hs. right. split; assumption. }
    destruct (String.eqb_spec (GetAddress addr) (Addr bp)) as [E2|E2].
    { replace (contactable (Addr bp) (GetAddress addr)) with false
        by (unfold contactable; rewrite E2, String.eqb_refl, andb_false_r; reflexivity).
      destruct (Status BeaconNotInited BeaconInited CurrentRound now Check bp nodes net)
        as [[resp net1]|msg] eqn:Hst; [| discriminate].
      pose proof (Status_net bp nodes net net1 resp Hst) as Hnet.
      destruct (IH _ _ _ _ H) as (Ha & Hk1 & Hk2 & Hs).
      split; [rewrite Ha, Hnet; reflexivity |].
      split; [| split].
      - intros a Hkey. destruct (Hk1 a Hkey) as [Hr | [Hne Hin]].
        + apply has_key_set in Hr as [-> | Hr]; [| left; exact Hr].
          right. split; [exact E1 |]. left.
          destruct addr as [x|]; simpl in *; [reflexivity | contradiction].
        + right; split; [exact Hne | right; exact Hin].
      - intros a Hkey. destruct (Hk2 a Hkey) as [Hr | Hr]; [| right; exact Hr].
        apply has_key_set in Hr as [-> | Hr]; [right; left; exact E2 | left; exact Hr].
      - intros _. apply Hs. left. rewrite <- E2. apply has_key_set. left; reflexivity. }
    replace (contactable (Addr bp) (GetAddress addr)) with true
      by (unfold contactable;
          destruct (String.eqb_spec (GetAddress addr) ""); [contradiction |];
          destruct (String.eqb_spec (GetAddress addr) (Addr bp)); [contradiction |];
          reflexivity).
    destruct (GatewayStatus (List.length (asked net)) (GetAddress addr))
      as [resp err] eqn:Hgw.
    assert (Hin0 : In (Some (GetAddress addr)) (addr :: rest)).
    { left. destruct addr as [x|]; simpl in *; [reflexivity | contradiction]. }
    destruct err as [e|].
    + destruct (IH _ _ _ _ H) as (Ha & Hk1 & Hk2 & Hs).
      split; [rewrite Ha; cbn [asked]; rewrite <- app_assoc; reflexivity |].
      split; [| split; [exact Hk2 |]].
      * intros a Hkey. destruct (Hk1 a Hkey) as [Hr | [Hne Hin]];
          [left; exact Hr | right; split; [exact Hne | right; exact Hin]].
      * intros [Hk | [Hne [Heq | Hin]]].
        -- apply Hs. left; exact Hk.
        -- exfalso. subst addr. simpl in E2. contradiction.
        -- apply Hs. right. split; assumption.
    + destruct (IH _ _ _ _ H) as (Ha & Hk1 & Hk2 & Hs).
      split; [rewrite Ha; cbn [asked]; rewrite <- app_assoc; reflexivity |].
      split; [| split].
      * intros a Hkey. destruct (Hk1 a Hkey) as [Hr | [Hne Hin]].
        -- apply has_key_set in Hr as [-> | Hr]; [| left; exact Hr].
           right. split; [exact E1 | exact Hin0].
        -- right; split; [exact Hne | right; exact Hin].
      * intros a Hkey. destruct (Hk2 a Hkey) as [Hr | Hr]; [| right; exact Hr].
        apply has_key_set in Hr as [-> | Hr]; [| left; exact Hr].
        right; right. exists (List.length (asked net)). rewrite Hgw. reflexivity.
      * intros [Hk | [Hne [Heq | Hin]]].
        -- apply Hs. left. apply has_key_set_mono. exact Hk.
        -- exfalso. subst addr. simpl in E2. contradiction.
        -- apply Hs. right. split; assumption.
Qed.

(** X21. [RemoteStatus], when it replies: the nodes asked with
    [privGateway.Status] are, in order, the addresses of the list that
    are neither empty nor the node's own; every key of the map of
    replies is a non-empty address of that list; and the node's own
    address, if listed, is answered by the local [Status] and always
    has an entry. *)
Theorem remote_status_contacts (bp : BeaconProcess)
    (addresses : list (option string)) (net net' : Net)
    (replies : gomap (option StatusResponse)) :
  RemoteStatus BeaconNotInited BeaconInited CurrentRound now Check GatewayStatus
    bp addresses net = Reply (replies, net') ->
  let nodes := remote_nodes bp addresses in
  asked net' = asked net ++ contacts (Addr bp) nodes
  /\ (forall a, has_key a replies -> a <> ""%string /\ In (Some a) nodes)
  /\ (Addr bp <> ""%string -> In (Some (Addr bp)) nodes ->
      has_key (Addr bp) replies).
Proof.
  intros H nodes. unfold RemoteStatus in H. fold nodes in H.
  destruct (remote_loop_spec bp _ _ _ _ _ _ H) as (Ha & Hk1 & _ & Hs).
  split; [exact Ha |]. split.
  - intros a Hkey. destruct (Hk1 a Hkey) as [Hr | Hr]; [| exact Hr].
    exfalso. exact (has_key_nil a Hr).
  - intros Hne Hin. apply Hs. right. split; assumption.
Qed.

(** X22. When [RemoteStatus] replies, a peer whose
    [privGateway.Status] calls all failed has no entry in the map of
    replies: failures are dropped from the reply, not reported in it. *)
Theorem remote_status_drops_failures (bp : BeaconProcess)
    (addresses : list (option string)) (net net' : Net)
    (replies : gomap (option StatusResponse)) (a : string) :
  RemoteStatus BeaconNotInited BeaconInited CurrentRound now Check GatewayStatus
    bp addresses net = Reply (replies, net') ->
  a <> Addr bp ->
  (forall k, snd (GatewayStatus k a) <> None) ->
  ~ has_key a replies.
Proof.
  unfold RemoteStatus. intros H Hne Hfail Hkey.
  destruct (remote_loop_spec bp _ _ _ _ _ _ H) as (_ & _ & Hk2 & _).
  destruct (Hk2 a Hkey) as [Hr | [Hr | (k & Hk)]].
  - exact (has_key_nil a Hr).
  - contradiction.
  - exact (Hfail k Hk).
Qed.

Lemma remote_loop_without_self (bp : BeaconProcess) (nodes : list (option string))
    (todo : list string) :
  ~ In (Addr bp) todo ->
  forall net replies,
  exists replies' net',
    remote_loop BeaconNotInited BeaconInited CurrentRound now Check GatewayStatus
      bp nodes (map Some todo) net replies = Reply (replies', net')
    /\ pinged net' = pinged net
    /\ (has_key (Addr bp) replies' -> has_key (Addr bp) replies).
Proof.
  induction todo as [|a rest IH]; intros Hnot net replies.
  - exists replies, net. repeat split; auto.
  - cbn [map remote_loop GetAddress].
    assert (Hrest : ~ In (Addr bp) rest) by (intros Hin; apply Hnot; right; exact Hin).
    assert (Ha : a <> Addr bp) by (intros ->; apply Hnot; left; reflexivity).
    destruct (String.eqb a ""); [apply IH; exact Hrest |].
    destruct (String.eqb_spec a (Addr bp)) as [|_]; [contradiction |].
    destruct (GatewayStatus (List.length (asked net)) a) as [resp [e|]].
    + destruct (IH Hrest {| pinged := pinged net; asked := asked net ++ [a] |} replies)
        as (r' & n' & Hr & Hp & Hk).
      exists r', n'. repeat split; assumption.
    + destruct (IH Hrest {| pinged := pinged net; asked := asked net ++ [a] |}
                  (map_set a resp replies)) as (r' & n' & Hr & Hp & Hk).
      exists r', n'. split; [exact Hr |]. split; [exact Hp |].
      intros Hkey. apply Hk in Hkey. apply has_key_set in Hkey as [Heq | Hkey];
        [exfalso; apply Ha; symmetry; exact Heq | exact Hkey].
Qed.

(** X23. [RemoteStatus] without addresses.  On a node without beacon
    or without group it contacts nobody and replies with the empty map.
    On a node with both it asks the nodes of the group other than
    itself: it never calls its own [Status], pings nobody, cannot panic,
    and its own address is not a key of the replies. *)
Theorem remote_status_default_nodes (bp : BeaconProcess) (net : Net) :
  let r := RemoteStatus BeaconNotInited BeaconInited CurrentRound now Check
             GatewayStatus bp [] net in
  match beacon bp, group bp with
  | Some _, Some g =>
      exists replies net',
        r = Reply (replies, net')
        /\ pinged net' = pinged net
        /\ asked net' = asked net ++ filter (contactable (Addr bp)) (Nodes g)
        /\ ~ has_key (Addr bp) replies
  | _, _ => r = Reply ([], net)
  end.
Proof.
  intros r. unfold r, RemoteStatus, remote_nodes.
  destruct (beacon bp) as [h|]; [| reflexivity].
  destruct (group bp) as [g|]; [| reflexivity].
  set (others := filter (fun a => negb (String.eqb a (Addr bp))) (Nodes g)).
  assert (Hnot : ~ In (Addr bp) others).
  { unfold others. rewrite filter_In, negb_true_iff. intros [_ H].
    rewrite String.eqb_refl in H. discriminate. }
  destruct (remote_loop_without_self bp (map Some others) others Hnot net [])
    as (replies & net' & Hr & Hp & Hk).
  exists replies, net'. split; [exact Hr |]. split; [exact Hp |].
  destruct (remote_loop_spec bp _ _ _ _ _ _ Hr) as (Ha & _).
  split.
  - rewrite Ha, contacts_group. f_equal. unfold others.
    clear. induction (Nodes g) as [|a l IH]; simpl; [reflexivity |].
    unfold contactable at 2.
    destruct (String.eqb_spec a (Addr bp)); cbn [negb]; simpl.
    + rewrite andb_false_r. exact IH.
    + unfold contactable at 1.
      destruct (String.eqb_spec a (Addr bp)); [contradiction |].
      destruct (String.eqb a ""); cbn [negb andb]; rewrite IH; reflexivity.
  - intros Hkey. exact (has_key_nil _ (Hk Hkey)).
Qed.

End Handlers.

Import StatusScenarios.

Lemma status_connectivity_witness :
  exists nodeList,
    connectivity_list member [Some self] = Reply nodeList
    /\ pinged status_net = pinged quiet ++ contacts (Addr member) nodeList
    /\ asked status_net = asked quiet
    /\ (forall a, In a (contacts (Addr member) nodeList) <->
                  In (Some a) nodeList /\ a <> ""%string /\ a <> Addr member)
    /\ (forall a, (exists m, Connections status_response = Some m /\ has_key a m)
                  <-> In a (contacts (Addr member) nodeList))
    /\ (Connections status_response = None <-> contacts (Addr member) nodeList = []).
Proof.
  apply (status_connectivity 0 1 round_at 1700000000 ping member [Some self]
           quiet status_net status_response).
  reflexivity.
Defined.

Lemma status_self_only_tests_group_witness :
  pinged status_net = pinged quiet ++ filter (contactable (Addr member)) (Nodes group3).
Proof.
  apply (status_self_only_tests_group 0 1 round_at 1700000000 ping member
           beacon_up group3 quiet status_net status_response);
    reflexivity.
Defined.

Lemma status_panics_iff_witness :
  (panics status_run <->
   ((exists h round, beacon member = Some h /\ Store_Last h = (Some round, None))
    /\ group member = None) \/ [Some self] = [None])
  /\ (forall resp net', status_run = Reply (resp, net') ->
       (IsEmpty (ChainStore resp) = false <->
        exists h round, beacon member = Some h /\ Store_Last h = (Some round, None))).
Proof.
  exact (status_panics_iff 0 1 round_at 1700000000 ping member [Some self] quiet).
Defined.

Lemma remote_status_contacts_witness :
  asked remote_net
  = asked quiet ++ contacts (Addr member) (remote_nodes member remote_request)
  /\ (forall a, has_key a remote_replies ->
                a <> ""%string /\ In (Some a) (remote_nodes member remote_request))
  /\ (Addr member <> ""%string ->
      In (Some (Addr member)) (remote_nodes member remote_request) ->
      has_key (Addr member) remote_replies).
Proof.
  apply (remote_status_contacts 0 1 round_at 1700000000 ping gateway member
           remote_request quiet remote_net remote_replies).
  reflexivity.
Defined.

Lemma remote_status_drops_failures_witness : ~ has_key peer3 remote_replies.
Proof.
  apply (remote_status_drops_failures 0 1 round_at 1700000000 ping gateway member
           remote_request quiet remote_net remote_replies peer3).
  - reflexivity.
  - discriminate.
  - intros k. discriminate.
Defined.

(** What the two runs look like. *)
Lemma runs_of_the_group_of_three :
  pinged status_net = [peer2; peer3]
  /\ Connections status_response = Some [(peer3, false); (peer2, true)]
  /\ map fst remote_replies = [peer2; self]
  /\ asked remote_net = [peer3; peer2]
  /\ pinged remote_net = [peer3; peer2].
Proof. repeat split. Qed.

End StatusFacts.
